(** * ht-rtms-server, package [network]: the multiplexing listener and its
    sniffing connection wrapper ([src/network/listener.go]).

    The Go code is embedded shallowly.  Mutable objects are threaded as
    explicit state: the upstream [io.Reader] of a sniffer is a state of some
    type [S] with a read function, a [bytes.Buffer] is its backing array and
    length, a channel is its queue and its closed flag, and the effects of the
    listener on the outside world (closing connections, closing the bound
    listener, calling the error policy, starting goroutines) are kept in a
    [World] record.  A run-time panic and a blocked call are explicit
    results. *)

From Stdlib.Strings Require Import String Byte.
From stdpp Require Import base list.

Set Default Proof Using "Type".
Local Open Scope nat_scope.

(** ** Go values shared by the whole package *)

(** A [net.Conn] is identified by a number; only its identity matters to the
    listener, and its read side is the upstream source of a sniffer. *)
Definition connId := nat.

(** What a value whose dynamic type implements [net.Error] answers to
    [Temporary()] and [Timeout()]. *)
Record netFlags := NetFlags { Temporary : bool; Timeout : bool }.

(** A non-nil Go [error].  The package declares [errListenerClosed] (a string
    type) and uses [ErrNotMatched{c: c}]; every other error comes from outside
    (the transport, the upstream reader) and is described by its message and,
    when its dynamic type implements [net.Error], by its flags. *)
Inductive error : Type :=
| errListenerClosed (msg : string)
| ErrNotMatched (c : connId)
| foreignErr (msg : string) (net : option netFlags).

(** [var ErrListenerClosed = errListenerClosed("mux: listener closed")] *)
Definition ErrListenerClosed : error := errListenerClosed "mux: listener closed".

(** [func (e errListenerClosed) Error() string { return string(e) }] *)
Definition errListenerClosed_Error (msg : string) : string := msg.
(** [func (e errListenerClosed) Temporary() bool { return false }] *)
Definition errListenerClosed_Temporary (msg : string) : bool := false.
(** [func (e errListenerClosed) Timeout() bool { return false }] *)
Definition errListenerClosed_Timeout (msg : string) : bool := false.

(** The Go [error] interface value: [None] is [nil]. *)
Definition goerror := option error.

(** ** [bytes.Buffer] as the sniffer uses it

    The sniffer calls [Bytes], [Len], [Cap] and [Write] and assigns the zero
    value; it never reads from the buffer, so the read offset of the Go
    structure stays 0 and is left out.  [arr] is the whole backing array
    (its length is the capacity), [len] the number of bytes written. *)
Module bytes.

Record Buffer := mkBuffer { arr : list Byte.byte; len : nat }.

(** [bytes.Buffer{}] *)
Definition zero : Buffer := mkBuffer [] 0.

Definition Len (b : Buffer) : nat := len b.
Definition Cap (b : Buffer) : nat := length (arr b).

(** The written bytes, [b.buf[:len]]. *)
Definition contents (b : Buffer) : list Byte.byte := take (len b) (arr b).

(** The slice expression [b.Bytes()[lo:hi]].  [Bytes()] has length [len]
    and capacity [Cap]; Go allows [0 <= lo <= hi <= cap] and panics
    otherwise ([None]).  Between [len] and [cap] the expression exposes the
    spare part of the backing array. *)
Definition Bytes_slice (lo hi : nat) (b : Buffer) : option (list Byte.byte) :=
  if bool_decide (lo ≤ hi ∧ hi ≤ Cap b)
  then Some (take (hi - lo) (drop lo (arr b)))
  else None.

Section Write.
(** The capacity chosen when [Write] has to allocate is decided by the Go
    library and run time (it differs between Go versions); it is a
    parameter, given the old capacity, the old length and the number of
    bytes to add, and it is never less than the bytes to hold. *)
Variable allocCap : nat → nat → nat → nat.

(** [func (b *Buffer) Write(p []byte) (n int, err error)]: appends [p],
    growing the array when [p] does not fit; a fresh array is zeroed
    beyond the bytes copied.  [err] is always nil. *)
Definition Write (p : list Byte.byte) (b : Buffer) : (nat * goerror) * Buffer :=
  let m := len b in
  let n := length p in
  if bool_decide (m + n ≤ Cap b)
  then (n, None, mkBuffer (take m (arr b) ++ p ++ drop (m + n) (arr b)) (m + n))
  else
    let c := Nat.max (m + n) (allocCap (Cap b) m n) in
    (n, None, mkBuffer (take m (arr b) ++ p ++ replicate (c - (m + n)) Byte.x00) (m + n)).
End Write.

(** The length never exceeds the capacity. *)
Definition ok (b : Buffer) : Prop := len b ≤ Cap b.

End bytes.

(** ** [io.Reader]: the upstream byte source

    [Read(p)] on a source in state [s] with [len(p) = n] returns the bytes it
    stored in [p[:k]], its error, and the next state of the source.  The
    interface requires [0 <= k <= len(p)]. *)
Class Reader (S : Type) := {
  srcRead : S → nat → (list Byte.byte * goerror) * S;
  srcRead_le : ∀ s n, length (srcRead s n).1.1 ≤ n
}.

(** What one [Read] call hands back: the bytes stored in [p[:n]] and [err]. *)
Definition readResult : Type := list Byte.byte * goerror.

(** The bytes of a sequence of results, in order. *)
Definition bytesOf (rs : list readResult) : list Byte.byte := concat (fst <$> rs).

(** Reading the source directly, one call per requested size. *)
Fixpoint srcReads {S} `{Reader S} (ns : list nat) (s : S) : list readResult * S :=
  match ns with
  | [] => ([], s)
  | n :: ns' =>
      let '(r, s') := srcRead s n in
      let '(rs, s'') := srcReads ns' s' in
      (r :: rs, s'')
  end.

(** ** The sniffer (lines 186-221) *)
Module sniffer.
Section sniffer.
Context {S : Type} `{Reader S}.
Variable allocCap : nat → nat → nat → nat.

(** [type sniffer struct].  The Go [int]s [bufferRead] and [bufferSize] only
    hold lengths of the buffer and sums of them, so they are natural
    numbers. *)
Record t := mk {
  source : S;
  buffer : bytes.Buffer;
  bufferRead : nat;
  bufferSize : nat;
  sniffing : bool;
  lastErr : goerror
}.

(** [sniffer{source: c}] *)
Definition new (src : S) : t := mk src bytes.zero 0 0 false None.

(** [func (s *sniffer) Read(p []byte) (int, error)] with [len(p) = n].
    [None] is a run-time panic of the slice expression. *)
Definition Read (n : nat) (s : t) : option (readResult * t) :=
  if bool_decide (bufferRead s < bufferSize s) then
    match bytes.Bytes_slice (bufferRead s) (bufferSize s) (buffer s) with
    | None => None
    | Some window =>
        (* bn := copy(p, window) *)
        let out := take n window in
        let bn := length out in
        Some ((out, lastErr s),
              mk (source s) (buffer s) (bufferRead s + bn) (bufferSize s)
                 (sniffing s) (lastErr s))
    end
  else
    let buffer1 :=
      if negb (sniffing s) && negb (bytes.Cap (buffer s) =? 0)
      then bytes.zero else buffer s in
    (* sn, sErr := s.source.Read(p) *)
    let '((data, sErr), src') := srcRead (source s) n in
    if bool_decide (0 < length data) && sniffing s then
      let '((wn, wErr), buffer2) := bytes.Write allocCap data buffer1 in
      let s' := mk src' buffer2 (bufferRead s) (bufferSize s) (sniffing s) sErr in
      match wErr with
      | Some e => Some ((take wn data, Some e), s')
      | None => Some ((data, sErr), s')
      end
    else
      Some ((data, sErr),
            mk src' buffer1 (bufferRead s) (bufferSize s) (sniffing s) (lastErr s)).

(** [func (s *sniffer) reset(snif bool)] *)
Definition reset (snif : bool) (s : t) : t :=
  mk (source s) (buffer s) 0 (bytes.Len (buffer s)) snif (lastErr s).

(** A caller performing one [Read] per requested size, in order. *)
Fixpoint Reads (ns : list nat) (s : t) : option (list readResult * t) :=
  match ns with
  | [] => Some ([], s)
  | n :: ns' =>
      match Read n s with
      | None => None
      | Some (r, s') =>
          match Reads ns' s' with
          | None => None
          | Some (rs, s'') => Some (r :: rs, s'')
          end
      end
  end.

(** The bytes still to be replayed: [buffer[bufferRead:bufferSize]]. *)
Definition replayWindow (s : t) : list Byte.byte :=
  take (bufferSize s - bufferRead s) (drop (bufferRead s) (bytes.contents (buffer s))).

(** The states the code can be in: the cursor never passes the ceiling, and
    a ceiling still to be reached lies within the written bytes. *)
Definition wf (s : t) : Prop :=
  bytes.ok (buffer s) ∧
  bufferRead s ≤ bufferSize s ∧
  (bufferRead s < bufferSize s → bufferSize s ≤ bytes.Len (buffer s)).

(** The states the code does get into: those of a new sniffer after any
    number of [Read] and [reset] calls. *)
Inductive reachable : t → Prop :=
| reachable_new (src : S) : reachable (new src)
| reachable_reset (snif : bool) (s : t) : reachable s → reachable (reset snif s)
| reachable_Read (n : nat) (s : t) (r : readResult) (s' : t) :
    reachable s → Read n s = Some (r, s') → reachable s'.

End sniffer.
End sniffer.

Arguments sniffer.t : clear implicits.

(** ** The sniffed connection (lines 156-182)

    [type Conn struct { net.Conn; buffer sniffer }]: the wrapped connection
    and its sniffer, whose source is the read side of that connection. *)
Module Conn.
Section Conn.
Context {S : Type} `{Reader S}.
Variable allocCap : nat → nat → nat → nat.

Record t := mk { Conn : connId; buffer : sniffer.t S }.

(** [func (m *Conn) Read(p []byte) (int, error)] *)
Definition Read (n : nat) (m : t) : option (readResult * t) :=
  match sniffer.Read allocCap n (buffer m) with
  | None => None
  | Some (r, b) => Some (r, mk (Conn m) b)
  end.

(** [func (m *Conn) startSniffing() io.Reader]: the reader returned is the
    sniffer itself, so reading it is [sniffer.Read] on [buffer]. *)
Definition startSniffing (m : t) : t := mk (Conn m) (sniffer.reset true (buffer m)).

(** [func (m *Conn) doneSniffing()] *)
Definition doneSniffing (m : t) : t := mk (Conn m) (sniffer.reset false (buffer m)).
End Conn.
End Conn.

Arguments Conn.t : clear implicits.

(** [func newConn(c net.Conn) *Conn]; [rd] is the state of the read side
    of [c]. *)
Definition newConn {S : Type} (c : connId) (rd : S) : Conn.t S :=
  Conn.mk c (sniffer.new rd).

(** How a call that may block ends: it returns, it is still blocked, or it
    panics. *)
Inductive outcome (A : Type) : Type :=
| Returns (a : A)
| Blocks
| Panics.
Arguments Returns {A} a.
Arguments Blocks {A}.
Arguments Panics {A}.

(** ** Channels

    A buffered Go channel: the values sent and not yet received, its capacity
    and whether [close] was called on it. *)
Module chan.
Section chan.
Context {A : Type}.

Record t := mk { queue : list A; capacity : nat; closed : bool }.

(** [make(chan A, n)] *)
Definition make (n : nat) : t := mk [] n false.

(** [v, ok := <-ch].  Values sent before the close are still delivered
    after it; a closed and empty channel yields the zero value and
    [ok = false]; an open and empty channel blocks ([None]). *)
Definition recv (ch : t) : option ((option A * bool) * t) :=
  match queue ch with
  | v :: q => Some ((Some v, true), mk q (capacity ch) (closed ch))
  | [] => if closed ch then Some ((None, false), ch) else None
  end.

(** [ch <- v]: panics on a closed channel, blocks on a full one. *)
Definition send (v : A) (ch : t) : outcome t :=
  if closed ch then Panics
  else if bool_decide (length (queue ch) < capacity ch)
       then Returns (mk (queue ch ++ [v]) (capacity ch) (closed ch))
       else Blocks.

(** [close(ch)]; closing a closed channel panics ([None]). *)
Definition close (ch : t) : option t :=
  if closed ch then None else Some (mk (queue ch) (capacity ch) true).
End chan.
End chan.

Arguments chan.t : clear implicits.

(** ** The secondary listener (lines 141-152)

    [type muxListener struct { net.Listener; connections chan net.Conn }].
    The embedded listener only provides [Close] and [Addr]; the state that
    [Accept] works on is the channel. *)
Module muxListener.

Record t := mk { connections : chan.t connId }.

(** [func (l muxListener) Accept() (net.Conn, error)].  [None] is a call
    that blocks on the empty open queue; the connection [None] is [nil]. *)
Definition Accept (l : t) : option ((option connId * goerror) * t) :=
  match chan.recv (connections l) with
  | None => None
  | Some ((c, ok), ch) =>
      if negb ok
      then Some ((None, Some ErrListenerClosed), mk ch)
      else Some ((c, None), mk ch)
  end.

(** A consumer calling [Accept] [k] times in a row. *)
Fixpoint Accepts (k : nat) (l : t) : option (list (option connId * goerror) * t) :=
  match k with
  | 0 => Some ([], l)
  | Datatypes.S k' =>
      match Accept l with
      | None => None
      | Some (r, l') =>
          match Accepts k' l' with
          | None => None
          | Some (rs, l'') => Some (r :: rs, l'')
          end
      end
  end.

End muxListener.

(** ** The multiplexing listener (lines 34-137) *)

(** The bound listener [m.root] belongs to the transport.  What the code sees
    of it is the sequence of results its [Accept] gives, a connection or an
    error each; when the sequence is used up, [Accept] blocks. *)
Definition rootListener : Type := list (connId + error).

(** [m.root.Accept()] *)
Definition root_Accept (r : rootListener) : option ((connId + error) * rootListener) :=
  match r with
  | [] => None
  | x :: r' => Some (x, r')
  end.

(** What the listener does to the objects around it, in the order it does
    it. *)
Inductive event : Type :=
| connClose (c : connId)      (* [c.Close()] *)
| policyCall (err : error)    (* [m.errorHandler(err)] *)
| rootClose.                  (* [m.root.Close()] *)

(** The world around the listener: what has been done so far, the channel
    [m.closing], and the listeners handed to downstream servers by
    [ServeAsync], in the order of their creation. *)
Record World := mkWorld {
  events : list event;
  closing : chan.t unit;
  facades : list muxListener.t
}.

(** One more thing done. *)
Definition emit (e : event) (w : World) : World :=
  mkWorld (events w ++ [e]) (closing w) (facades w).

(** The functions declared in [listener.go], for the call graph. *)
Inductive fn : Type :=
| f_errListenerClosed_Error | f_errListenerClosed_Temporary
| f_errListenerClosed_Timeout
| f_New | f_Listener_Accept | f_Listener_ServeAsync | f_Listener_SetReadTimeout
| f_Listener_Serve | f_Listener_serve | f_Listener_HandleError
| f_Listener_handleErr | f_Listener_Close
| f_muxListener_Accept
| f_newConn | f_Conn_Read | f_Conn_startSniffing | f_Conn_doneSniffing
| f_sniffer_Read | f_sniffer_reset.

(** The functions of the file each function body calls.  Calls into the Go
    library and calls of function values handed in by the user
    ([m.errorHandler], the [serve] argument of [ServeAsync]) leave the file;
    a method call through an interface is listed with every method of the file
    that can stand behind it by its type ([m.root.Accept()], [ne.Temporary()]
    in [handleErr], and [s.source.Read(p)], whose source may itself be a
    [*Conn]). *)
Definition callees (f : fn) : list fn :=
  match f with
  | f_Listener_Accept => [f_muxListener_Accept]
  | f_Listener_Serve => [f_muxListener_Accept; f_Listener_handleErr; f_Listener_serve]
  | f_Listener_serve => [f_Listener_handleErr]
  | f_Listener_handleErr => [f_errListenerClosed_Temporary]
  | f_Conn_Read => [f_sniffer_Read]
  | f_Conn_startSniffing => [f_sniffer_reset]
  | f_Conn_doneSniffing => [f_sniffer_reset]
  | f_sniffer_Read => [f_Conn_Read]
  | _ => []
  end.

(** [reaches f g]: a chain of calls leads from the body of [f] to [g]. *)
Inductive reaches : fn → fn → Prop :=
| reaches_refl f : reaches f f
| reaches_call f g h : g ∈ callees f → reaches g h → reaches f h.

(** The functions that [Accept] and [Serve] of the listener can lead to. *)
Definition acceptSide (f : fn) : bool :=
  match f with
  | f_Listener_Accept | f_Listener_Serve | f_Listener_serve
  | f_Listener_handleErr | f_errListenerClosed_Temporary
  | f_muxListener_Accept => true
  | _ => false
  end.

Module Listener.
Section Listener.
(** The declaration of [ErrNotMatched] is not among the sources: whether the
    type implements [net.Error], and with which flags, is a parameter. *)
Variable ErrNotMatched_net : connId → option netFlags.

(** [type Listener struct].  [root] and [closing] are references to objects
    of the world: the results of [root] are passed to the functions that
    call its [Accept], and the state of [closing] is in [World].  The policy
    is a function of the error alone. *)
Record t := mk {
  bufferSize : nat;
  errorHandler : error → bool;
  readTimeout : nat
}.

(** [var noTimeout time.Duration] *)
Definition noTimeout : nat := 0.

(** [func New(address string)], which returns a [Listener] pointer and an error; [listenErr] is the
    error of [net.Listen("tcp", address)]. *)
Definition New (listenErr : goerror) : option t * goerror :=
  match listenErr with
  | Some err => (None, Some err)
  | None => (Some (mk 1024 (λ _, true) noTimeout), None)
  end.

(** The world of a new listener, with [closing: make(chan struct{})]. *)
Definition newWorld : World := mkWorld [] (chan.make 0) [].

(** [func (m *Listener) Accept() (net.Conn, error)] *)
Definition Accept (m : t) (r : rootListener) : option ((connId + error) * rootListener) :=
  root_Accept r.

(** [func (m *Listener) ServeAsync(serve func(l net.Listener) error)]: the
    new facade is handed to the downstream server, which runs on its own. *)
Definition ServeAsync (m : t) (w : World) : muxListener.t * World :=
  let ml := muxListener.mk (chan.make (bufferSize m)) in
  (ml, mkWorld (events w) (closing w) (facades w ++ [ml])).

(** [func (m *Listener) SetReadTimeout(t time.Duration)] *)
Definition SetReadTimeout (d : nat) (m : t) : t :=
  mk (bufferSize m) (errorHandler m) d.

(** [func (m *Listener) HandleError(h ErrorHandler)] *)
Definition HandleError (h : error → bool) (m : t) : t :=
  mk (bufferSize m) h (readTimeout m).

(** The type assertion [err.(net.Error)]: the three methods of
    [errListenerClosed] make it a [net.Error]. *)
Definition asNetError (err : error) : option netFlags :=
  match err with
  | errListenerClosed s =>
      Some (NetFlags (errListenerClosed_Temporary s) (errListenerClosed_Timeout s))
  | ErrNotMatched c => ErrNotMatched_net c
  | foreignErr _ nf => nf
  end.

(** [func (m *Listener) handleErr(err error) bool] *)
Definition handleErr (m : t) (err : error) (w : World) : bool * World :=
  let w' := emit (policyCall err) w in
  if negb (errorHandler m err) then (false, w')
  else
    match asNetError err with
    | Some ne => (Temporary ne, w')
    | None => (false, w')
    end.

(** [func (m *Listener) Close() error]; [closeErr] is the error of
    [m.root.Close()]. *)
Definition Close (m : t) (closeErr : goerror) (w : World) : goerror * World :=
  (closeErr, emit rootClose w).

(** [func (m *Listener) serve(c net.Conn, donec <-chan struct{}, wg *sync.WaitGroup)].
    [wg] is the counter of the wait group and the result holds the counter
    after the deferred [wg.Done()], which panics ([None]) on a counter
    that is 0. *)
Definition serve (m : t) (c : connId) (wg : nat) (w : World) : option (nat * World) :=
  (* _ = c.Close() *)
  let w1 := emit (connClose c) w in
  let err := ErrNotMatched c in
  let '(continue, w2) := handleErr m err w1 in
  let w3 := if negb continue then emit rootClose w2 else w2 in
  match wg with
  | 0 => None
  | Datatypes.S wg' => Some (wg', w3)
  end.

(** The [for] loop of [Serve] over the results of [m.root.Accept()].
    [tasks] are the connections whose [go m.serve(...)] has been started and
    [wg] is the counter after the [wg.Add(1)] calls.  The first component
    of the result is the error the loop returns, or [None] when the loop is
    still blocked in [Accept] after the last result. *)
Fixpoint acceptLoop (m : t) (r : rootListener) (tasks : list connId) (wg : nat)
    (w : World) : goerror * list connId * nat * World :=
  match r with
  | [] => (None, tasks, wg, w)
  | inr err :: r' =>
      let '(continue, w') := handleErr m err w in
      if negb continue
      then (Some err, tasks, wg, w')
      else acceptLoop m r' tasks wg w'
  | inl c :: r' =>
      acceptLoop m r' (tasks ++ [c]) (Datatypes.S wg) w
  end.

(** The goroutines started by the loop, run one after the other in the order
    they were started. *)
Fixpoint runTasks (m : t) (tasks : list connId) (wg : nat) (w : World)
    : option (nat * World) :=
  match tasks with
  | [] => Some (wg, w)
  | c :: tasks' =>
      match serve m c wg w with
      | None => None
      | Some (wg', w') => runTasks m tasks' wg' w'
      end
  end.

(** [func (m *Listener) Serve() error].  When the loop returns an error the
    deferred function closes [m.closing] and waits for the counter to reach
    0, that is, for the started tasks to have run; [wg.Wait()] of a counter
    that is not 0 afterwards would block. *)
Definition Serve (m : t) (r : rootListener) (w : World) : outcome error * World :=
  let '(res, tasks, wg, w1) := acceptLoop m r [] 0 w in
  match res with
  | None => (Blocks, w1)
  | Some err =>
      match chan.close (closing w1) with
      | None => (Panics, w1)
      | Some cl =>
          let w2 := mkWorld (events w1) cl (facades w1) in
          match runTasks m tasks wg w2 with
          | None => (Panics, w2)
          | Some (0, w3) => (Returns err, w3)
          | Some (_, w3) => (Blocks, w3)
          end
      end
  end.

(** The accept loop goes on after the error [err]: the policy says so and the
    error is a [net.Error] that is temporary. *)
Definition continues (m : t) (err : error) : Prop :=
  errorHandler m err = true ∧
  ∃ ne, asNetError err = Some ne ∧ Temporary ne = true.

(** A result of [m.root.Accept()] after which the loop asks for the next
    one: a connection, or an error after which the loop goes on. *)
Definition goesOn (m : t) (x : connId + error) : Prop :=
  match x with
  | inl _ => True
  | inr err => continues m err
  end.

End Listener.
End Listener.

(** ** Runs of the sniffer described on their own *)

(** Replay as the design describes it, for readers asking for [ns] bytes in
    turn: as long as bytes of the replay window are left, a read is the next
    bytes of the window, at most as many as asked for, with the error stored
    when sniffing; once the window is used up, this read and all later ones
    are reads of the source. *)
Fixpoint replay {S} `{Reader S} (err : goerror) (ns : list nat)
    (window : list Byte.byte) (src : S) : list readResult * S :=
  match ns with
  | [] => ([], src)
  | n :: ns' =>
      match window with
      | [] => srcReads (n :: ns') src
      | _ :: _ =>
          let '(rs, src') := replay err ns' (drop n window) src in
          ((take n window, err) :: rs, src')
      end
  end.

(** How many bytes of the buffer the reads since the last [reset] have gone
    over: the cursor while it is below the ceiling, all of them after. *)
Definition served {S} (s : sniffer.t S) : nat :=
  if bool_decide (sniffer.bufferRead s < sniffer.bufferSize s)
  then sniffer.bufferRead s
  else bytes.Len (sniffer.buffer s).

(** A sniffer that has nothing buffered and nothing to replay, with sniffing
    off: the states of a connection that was never sniffed are of this kind,
    and so are those of one whose buffer has been dropped after the replay. *)
Definition idle {S} (s : sniffer.t S) : Prop :=
  sniffer.sniffing s = false ∧
  bytes.Len (sniffer.buffer s) = 0 ∧
  sniffer.bufferSize s ≤ sniffer.bufferRead s.

(** ** A concrete source and a concrete allocation policy

    A source that has its answers written down: each entry holds the bytes
    that have arrived and the error reported with their last byte.  A read
    takes from the first entry what fits the caller's slice and leaves the
    rest of the entry for the next read; without entries it reports [EOF]. *)
Definition EOF : error := foreignErr "EOF" None.

Definition scripted : Type := list (list Byte.byte * goerror).

Definition scripted_Read (s : scripted) (n : nat) : (list Byte.byte * goerror) * scripted :=
  match s with
  | [] => (([], Some EOF), [])
  | (d, e) :: s' =>
      if bool_decide (length d ≤ n)
      then ((d, e), s')
      else ((take n d, None), (drop n d, e) :: s')
  end.

Lemma scripted_Read_le (s : scripted) (n : nat) : length (scripted_Read s n).1.1 ≤ n.
Proof.
  destruct s as [|[d e] s']; simpl; [lia|].
  case_bool_decide; simpl; [done | rewrite length_take; lia].
Qed.

#[global] Instance scripted_Reader : Reader scripted :=
  {| srcRead := scripted_Read; srcRead_le := scripted_Read_le |}.

(** An allocation policy of the kind [bytes.Buffer] has: 64 bytes for a
    first small write, twice the capacity plus the bytes to add otherwise. *)
Definition doublingCap (cap m n : nat) : nat :=
  if bool_decide (cap = 0 ∧ n ≤ 64) then 64 else 2 * cap + n.

(** The bytes of ["HE"], ["LLO"] and ["HELLO"]. *)
Definition HE : list Byte.byte := [Byte.x48; Byte.x45].
Definition LLO : list Byte.byte := [Byte.x4c; Byte.x4c; Byte.x4f].
Definition HELLO : list Byte.byte := HE ++ LLO.

(** The sniffer after ["HELLO"] has been sniffed from a source [src] and
    sniffing has been stopped: five bytes to replay. *)
Definition afterHello (src : scripted) : sniffer.t scripted :=
  sniffer.mk src (bytes.mkBuffer (HELLO ++ replicate 59 Byte.x00) 5) 0 5 false None.

(** A source on which ["HELLO"] arrives in one piece. *)
Definition helloAtOnce : scripted := [(HELLO, None)].

(** A source on which ["HE"] arrives without error and then ["LLO"]
    together with the end of the stream. *)
Definition helloSource : scripted := [(HE, None); (LLO, Some EOF)].

(** ** Concrete listeners and errors *)

(** [ErrNotMatched] as a [net.Error] that is temporary and no timeout. *)
Definition temporaryNotMatched (c : connId) : option netFlags :=
  Some (NetFlags true false).

(** The error of [Accept] on a bound listener that has been closed: a
    [net.Error] that is neither temporary nor a timeout. *)
Definition errClosed : error :=
  foreignErr "use of closed network connection" (Some (NetFlags false false)).

(** The listener [New] makes when [net.Listen] succeeds. *)
Definition defaultListener : Listener.t := Listener.mk 1024 (λ _, true) Listener.noTimeout.

(** The same with a policy that stops on every error. *)
Definition strictListener : Listener.t := Listener.mk 1024 (λ _, false) Listener.noTimeout.

(** A closed queue that still holds connection 7. *)
Definition closedWithOne : muxListener.t := muxListener.mk (chan.mk [7] 1024 true).

(** ** Whole runs of the listener and of a connection, described on their own *)

(** [handleErr]'s answer as a function of the listener and the error. *)
Definition continuesb (nm : connId → option netFlags) (m : Listener.t) (err : error) : bool :=
  Listener.errorHandler m err &&
  match Listener.asNetError nm err with
  | Some ne => Temporary ne
  | None => false
  end.

(** The first result of [m.root.Accept()] that ends the loop of [Serve]: the
    first error after which the loop does not go on. *)
Fixpoint firstFatal (nm : connId → option netFlags) (m : Listener.t) (r : rootListener)
    : option error :=
  match r with
  | [] => None
  | inl _ :: r' => firstFatal nm m r'
  | inr err :: r' => if continuesb nm m err then firstFatal nm m r' else Some err
  end.

(** The connections the loop accepts before it ends. *)
Fixpoint accepted (nm : connId → option netFlags) (m : Listener.t) (r : rootListener)
    : list connId :=
  match r with
  | [] => []
  | inl c :: r' => c :: accepted nm m r'
  | inr err :: r' => if continuesb nm m err then accepted nm m r' else []
  end.

(** The errors of the accept call the loop meets, the one that ends it
    included. *)
Fixpoint acceptErrors (nm : connId → option netFlags) (m : Listener.t) (r : rootListener)
    : list error :=
  match r with
  | [] => []
  | inl _ :: r' => acceptErrors nm m r'
  | inr err :: r' => err :: (if continuesb nm m err then acceptErrors nm m r' else [])
  end.

(** What the task of connection [c] does. *)
Definition taskEvents (nm : connId → option netFlags) (m : Listener.t) (c : connId)
    : list event :=
  connClose c :: policyCall (ErrNotMatched c)
    :: (if continuesb nm m (ErrNotMatched c) then [] else [rootClose]).

(** The connections closed, the errors handed to the policy and the number
    of times the bound listener was closed, read off a list of events. *)
Definition closedConns (evs : list event) : list connId :=
  omap (λ e, match e with connClose c => Some c | _ => None end) evs.

Definition policyCalls (evs : list event) : list error :=
  omap (λ e, match e with policyCall err => Some err | _ => None end) evs.

Definition rootCloses (evs : list event) : nat :=
  length (omap (λ e, match e with rootClose => Some tt | _ => None end) evs).

(** The error stored after sniffing reads with the results [rs]: that of the
    last result that came with bytes, [e0] when there is none. *)
Definition storedErr (e0 : goerror) (rs : list readResult) : goerror :=
  foldl (λ e r, if bool_decide (0 < length r.1) then r.2 else e) e0 rs.

(** What the user of a sniffed connection can do with it. *)
Inductive connOp : Type :=
| opRead (n : nat)
| opStartSniffing
| opDoneSniffing.

(** A sequence of operations on a connection; the results of the reads are
    collected, and a panic of one of them is a panic of the whole. *)
Fixpoint runOps {S : Type} `{Reader S} (allocCap : nat → nat → nat → nat)
    (ops : list connOp) (m : Conn.t S) : option (list readResult * Conn.t S) :=
  match ops with
  | [] => Some ([], m)
  | opRead n :: ops' =>
      match Conn.Read allocCap n m with
      | None => None
      | Some (r, m') =>
          match runOps allocCap ops' m' with
          | None => None
          | Some (rs, m'') => Some (r :: rs, m'')
          end
      end
  | opStartSniffing :: ops' => runOps allocCap ops' (Conn.startSniffing m)
  | opDoneSniffing :: ops' => runOps allocCap ops' (Conn.doneSniffing m)
  end.

(** A timeout of the accept call: a [net.Error] that is temporary. *)
Definition errTimeout : error := foreignErr "i/o timeout" (Some (NetFlags true true)).

(** Results of the accept call on which the loop accepts connections 1 and 2
    around a timeout and then ends on the error of the closed listener. *)
Definition sampleAccepts : rootListener :=
  [inl 1; inr errTimeout; inl 2; inr errClosed; inl 3].

(** The sizes of the reads among a sequence of operations. *)
Definition readSizes (ops : list connOp) : list nat :=
  omap (λ o, match o with opRead n => Some n | _ => None end) ops.


(** A source on which ["HELLO"] arrives and then ["LLO"]. *)
Definition helloThenLlo : scripted := [(HELLO, None); (LLO, None)].

(** A sniffer with sniffing off on which starting and stopping a session
    without a read changes nothing: nothing is buffered, or the replay of the
    whole buffer has not begun. *)
Definition rested {S} (s : sniffer.t S) : Prop :=
  sniffer.sniffing s = false ∧
  ((bytes.Len (sniffer.buffer s) = 0 ∧ sniffer.bufferSize s ≤ sniffer.bufferRead s) ∨
   (sniffer.bufferRead s = 0 ∧ sniffer.bufferSize s = bytes.Len (sniffer.buffer s))).

(** * Properties *)

(** ** [bytes.Buffer] *)
Section buffer_facts.
Variable allocCap : nat → nat → nat → nat.
Implicit Types (b : bytes.Buffer) (p : list Byte.byte).

Lemma zero_ok : bytes.ok bytes.zero.
Proof. unfold bytes.ok; simpl; lia. Qed.

Lemma length_contents b : bytes.ok b → length (bytes.contents b) = bytes.Len b.
Proof.
  unfold bytes.ok, bytes.contents, bytes.Len, bytes.Cap; intros Hok.
  rewrite length_take; lia.
Qed.

Lemma Write_result p b : (bytes.Write allocCap p b).1 = (length p, None).
Proof. unfold bytes.Write; case_bool_decide; reflexivity. Qed.

Lemma Write_Len p b :
  bytes.Len (bytes.Write allocCap p b).2 = bytes.Len b + length p.
Proof. unfold bytes.Write; case_bool_decide; reflexivity. Qed.

Lemma Write_ok p b : bytes.ok b → bytes.ok (bytes.Write allocCap p b).2.
Proof.
  unfold bytes.ok, bytes.Write, bytes.Cap; intros Hok.
  case_bool_decide; simpl;
    rewrite !length_app, length_take, ?length_drop, ?length_replicate; lia.
Qed.

Lemma Write_contents p b :
  bytes.ok b →
  bytes.contents (bytes.Write allocCap p b).2 = bytes.contents b ++ p.
Proof.
  unfold bytes.ok, bytes.Write, bytes.contents, bytes.Cap; intros Hok.
  assert (Hlen : length (take (bytes.len b) (bytes.arr b)) = bytes.len b)
    by (rewrite length_take; lia).
  case_bool_decide; simpl.
  - rewrite app_assoc, take_app_le by (rewrite length_app; lia).
    rewrite take_ge by (rewrite length_app; lia). reflexivity.
  - rewrite app_assoc, take_app_le by (rewrite length_app; lia).
    rewrite take_ge by (rewrite length_app; lia). reflexivity.
Qed.

Lemma Write_Cap_pos p b :
  0 < length p → bytes.ok b → 0 < bytes.Cap (bytes.Write allocCap p b).2.
Proof.
  intros Hp Hok. pose proof (Write_ok p b Hok) as Hok'.
  unfold bytes.ok in Hok'. pose proof (Write_Len p b) as HL.
  unfold bytes.Len in HL. lia.
Qed.

(** Within the written bytes the slice expression is a part of them. *)
Lemma Bytes_slice_written lo hi b :
  bytes.ok b → lo ≤ hi → hi ≤ bytes.Len b →
  bytes.Bytes_slice lo hi b = Some (take (hi - lo) (drop lo (bytes.contents b))).
Proof.
  unfold bytes.ok, bytes.Bytes_slice, bytes.contents, bytes.Len; intros Hok Hlo Hhi.
  rewrite bool_decide_eq_true_2 by lia. f_equal.
  rewrite skipn_firstn_comm, take_take. f_equal. lia.
Qed.

Lemma ok_Cap_0 b : bytes.ok b → bytes.Cap b = 0 → b = bytes.zero.
Proof.
  destruct b as [a l]; unfold bytes.ok, bytes.Cap, bytes.zero; simpl.
  intros Hok Hc. destruct a; [|discriminate]. f_equal. simpl in Hok. lia.
Qed.
End buffer_facts.

(** ** The sniffer, one call at a time *)
Section sniffer_steps.
Context {S : Type} `{Reader S}.
Variable allocCap : nat → nat → nat → nat.
Implicit Types (s t : sniffer.t S) (n : nat) (ns : list nat).

Local Abbreviation Read := (sniffer.Read allocCap).
Local Abbreviation Reads := (sniffer.Reads allocCap).
Local Abbreviation reset := sniffer.reset.
Local Abbreviation wf := sniffer.wf.

Lemma wf_new (src : S) : wf (sniffer.new src).
Proof. unfold wf, sniffer.new; simpl. split; [apply zero_ok | lia]. Qed.

Lemma wf_reset flag s : bytes.ok (sniffer.buffer s) → wf (reset flag s).
Proof. unfold wf, reset; simpl. intros Hok. repeat split; [done | lia | lia]. Qed.

Lemma length_replayWindow s :
  wf s →
  length (sniffer.replayWindow s) = sniffer.bufferSize s - sniffer.bufferRead s.
Proof.
  intros (Hok & Hle & Hin). unfold sniffer.replayWindow.
  rewrite length_take, length_drop, length_contents by done. lia.
Qed.

(** A read below the ceiling: the bytes come from the buffer, with the
    stored error, and only the cursor moves. *)
Lemma Read_replay n s :
  wf s → sniffer.bufferRead s < sniffer.bufferSize s →
  Read n s =
    Some ((take n (sniffer.replayWindow s), sniffer.lastErr s),
          sniffer.mk (sniffer.source s) (sniffer.buffer s)
            (sniffer.bufferRead s + n `min` (sniffer.bufferSize s - sniffer.bufferRead s))
            (sniffer.bufferSize s) (sniffer.sniffing s) (sniffer.lastErr s)).
Proof.
  intros Hwf Hlt. pose proof (length_replayWindow s Hwf) as Hlen.
  destruct Hwf as (Hok & Hle & Hin). specialize (Hin Hlt).
  unfold sniffer.Read. rewrite bool_decide_eq_true_2 by done.
  rewrite Bytes_slice_written by (done || lia).
  fold (sniffer.replayWindow s). rewrite length_take, Hlen. reflexivity.
Qed.

(** A read at the ceiling with sniffing off: the call and its result are
    those of the source, and a buffer that holds an array is dropped. *)
Lemma Read_passthrough n s :
  sniffer.bufferSize s ≤ sniffer.bufferRead s → sniffer.sniffing s = false →
  Read n s =
    Some ((srcRead (sniffer.source s) n).1,
          sniffer.mk (srcRead (sniffer.source s) n).2
            (if negb (bytes.Cap (sniffer.buffer s) =? 0) then bytes.zero
             else sniffer.buffer s)
            (sniffer.bufferRead s) (sniffer.bufferSize s) false (sniffer.lastErr s)).
Proof.
  intros Hge Hsn. unfold sniffer.Read.
  rewrite bool_decide_eq_false_2 by lia. rewrite Hsn. simpl.
  destruct (srcRead (sniffer.source s) n) as [[data sErr] src'].
  rewrite andb_false_r. reflexivity.
Qed.

(** A read at the ceiling with sniffing on: the call and its result are
    those of the source; bytes that came are appended to the buffer and
    their error is stored. *)
Lemma Read_sniff n s :
  sniffer.bufferSize s ≤ sniffer.bufferRead s → sniffer.sniffing s = true →
  Read n s =
    let r := (srcRead (sniffer.source s) n).1 in
    Some (r,
          sniffer.mk (srcRead (sniffer.source s) n).2
            (if bool_decide (0 < length r.1)
             then (bytes.Write allocCap r.1 (sniffer.buffer s)).2
             else sniffer.buffer s)
            (sniffer.bufferRead s) (sniffer.bufferSize s) true
            (if bool_decide (0 < length r.1) then r.2 else sniffer.lastErr s)).
Proof.
  intros Hge Hsn. unfold sniffer.Read.
  rewrite bool_decide_eq_false_2 by lia. rewrite Hsn. simpl.
  destruct (srcRead (sniffer.source s) n) as [[data sErr] src']. simpl.
  rewrite andb_true_r. case_bool_decide; [|reflexivity].
  pose proof (Write_result allocCap data (sniffer.buffer s)) as Hw.
  destruct (bytes.Write allocCap data (sniffer.buffer s)) as [[wn wErr] b2].
  simpl in Hw. injection Hw as -> ->. reflexivity.
Qed.

(** From a well-formed state a read does not panic, and the state it
    leaves is well formed. *)
Lemma Read_wf n s :
  wf s → ∃ r t, Read n s = Some (r, t) ∧ wf t.
Proof.
  intros Hwf.
  destruct (decide (sniffer.bufferRead s < sniffer.bufferSize s)) as [Hlt|Hge].
  - rewrite Read_replay by done. eexists _, _. split; [reflexivity|].
    destruct Hwf as (Hok & Hle & Hin). unfold wf; simpl.
    repeat split; [done | lia | intros _; apply Hin; lia].
  - destruct (sniffer.sniffing s) eqn:Hsn.
    + rewrite Read_sniff by (done || lia). eexists _, _. split; [reflexivity|].
      destruct Hwf as (Hok & Hle & Hin). unfold wf; simpl.
      repeat split; [|lia|lia].
      case_bool_decide; [by apply Write_ok | done].
    + rewrite Read_passthrough by (done || lia). eexists _, _. split; [reflexivity|].
      destruct Hwf as (Hok & Hle & Hin). unfold wf; simpl.
      repeat split; [|lia|lia].
      destruct (negb _); [apply zero_ok | done].
Qed.

Lemma Reads_wf ns s :
  wf s → ∃ rs t, Reads ns s = Some (rs, t) ∧ wf t.
Proof.
  revert s. induction ns as [|n ns IH]; intros s Hwf; simpl.
  - by eexists _, _.
  - destruct (Read_wf n s Hwf) as (r & t & -> & Hwf').
    destruct (IH t Hwf') as (rs & t' & -> & Hwf'').
    by eexists _, _.
Qed.

(** Every state the code gets into is well formed. *)
Lemma reachable_wf s : sniffer.reachable allocCap s → wf s.
Proof.
  induction 1 as [src|snif s _ IH|n s r s' _ IH HR].
  - apply wf_new.
  - apply wf_reset, IH.
  - destruct (Read_wf n s IH) as (r' & t & HR' & Hwf).
    rewrite HR in HR'. by injection HR' as -> ->.
Qed.

(** A read never hands back more bytes than the caller's slice holds. *)
Lemma Read_le n s r t : wf s → Read n s = Some (r, t) → length r.1 ≤ n.
Proof.
  intros Hwf.
  destruct (decide (sniffer.bufferRead s < sniffer.bufferSize s)) as [Hlt|Hge].
  - rewrite Read_replay by done. intros [= <- <-]. simpl.
    rewrite length_take. lia.
  - destruct (sniffer.sniffing s) eqn:Hsn.
    + rewrite Read_sniff by (done || lia). simpl. intros [= <- <-].
      apply srcRead_le.
    + rewrite Read_passthrough by (done || lia). intros [= <- <-].
      apply srcRead_le.
Qed.
End sniffer_steps.

(** ** The sniffer over a sequence of reads *)
Section sniffer_runs.
Context {S : Type} `{Reader S}.
Variable allocCap : nat → nat → nat → nat.
Implicit Types (s t : sniffer.t S) (n : nat) (ns : list nat).

Local Abbreviation Read := (sniffer.Read allocCap).
Local Abbreviation Reads := (sniffer.Reads allocCap).
Local Abbreviation reset := sniffer.reset.
Local Abbreviation wf := sniffer.wf.

Lemma bytesOf_cons (r : readResult) rs : bytesOf (r :: rs) = r.1 ++ bytesOf rs.
Proof. reflexivity. Qed.

Lemma sum_list_cons n ns : sum_list (n :: ns) = n + sum_list ns.
Proof. reflexivity. Qed.

Lemma srcReads_cons n ns (src : S) :
  srcReads (n :: ns) src =
    ((srcRead src n).1 :: (srcReads ns (srcRead src n).2).1,
     (srcReads ns (srcRead src n).2).2).
Proof.
  simpl. destruct (srcRead src n) as [r src']. simpl.
  destruct (srcReads ns src') as [rs src'']. reflexivity.
Qed.

(** At the ceiling with sniffing off, a sequence of reads is the same
    sequence of reads of the source; the cursor, the ceiling and the stored
    error stay, and after the first read no array is held. *)
Lemma Reads_passthrough ns s :
  sniffer.bufferSize s ≤ sniffer.bufferRead s → sniffer.sniffing s = false →
  Reads ns s =
    Some ((srcReads ns (sniffer.source s)).1,
          sniffer.mk (srcReads ns (sniffer.source s)).2
            (match ns with
             | [] => sniffer.buffer s
             | _ :: _ => if negb (bytes.Cap (sniffer.buffer s) =? 0) then bytes.zero
                         else sniffer.buffer s
             end)
            (sniffer.bufferRead s) (sniffer.bufferSize s) false (sniffer.lastErr s)).
Proof.
  revert s. induction ns as [|n ns IH]; intros s Hge Hsn.
  - simpl. destruct s; simpl in *; by subst.
  - cbn [sniffer.Reads]. rewrite Read_passthrough by done.
    rewrite IH by done. rewrite srcReads_cons. simpl. do 3 f_equal.
    destruct ns; [done|].
    destruct (bytes.Cap (sniffer.buffer s) =? 0) eqn:Hc; simpl; [|done].
    by rewrite Hc.
Qed.

Lemma replayWindow_nil s :
  sniffer.bufferSize s ≤ sniffer.bufferRead s → sniffer.replayWindow s = [].
Proof.
  intros Hge. unfold sniffer.replayWindow.
  replace (sniffer.bufferSize s - sniffer.bufferRead s) with 0 by lia.
  apply take_0.
Qed.

(** With sniffing off, the code's reads are the replay of the design: the
    window first, with the stored error and without touching the source,
    then the source. *)
Lemma Reads_replay ns s :
  wf s → sniffer.sniffing s = false →
  ∃ t, Reads ns s =
         Some ((replay (sniffer.lastErr s) ns (sniffer.replayWindow s) (sniffer.source s)).1, t)
       ∧ sniffer.source t =
           (replay (sniffer.lastErr s) ns (sniffer.replayWindow s) (sniffer.source s)).2
       ∧ sniffer.sniffing t = false.
Proof.
  revert s. induction ns as [|n ns IH]; intros s Hwf Hsn.
  - simpl. by eexists.
  - destruct (decide (sniffer.bufferRead s < sniffer.bufferSize s)) as [Hlt|Hge].
    + pose proof (length_replayWindow s Hwf) as Hlen.
      cbn [sniffer.Reads]. rewrite Read_replay by done.
      set (t := sniffer.mk _ _ _ _ _ _).
      assert (Hwt : wf t).
      { destruct Hwf as (Hok & Hle & Hin). unfold wf, t; simpl.
        repeat split; [done | lia | intros _; apply Hin; lia]. }
      assert (Hwin : sniffer.replayWindow t = drop n (sniffer.replayWindow s)).
      { unfold sniffer.replayWindow, t; simpl.
        rewrite skipn_firstn_comm, drop_drop.
        destruct (decide (n ≤ sniffer.bufferSize s - sniffer.bufferRead s)).
        - rewrite Nat.min_l by done. f_equal. lia.
        - rewrite Nat.min_r by lia.
          replace (sniffer.bufferSize s - _) with 0 by lia.
          replace (sniffer.bufferSize s - sniffer.bufferRead s - n) with 0 by lia.
          by rewrite !take_0. }
      destruct (IH t Hwt Hsn) as (t' & -> & Hsrc & Hsn').
      rewrite Hwin in *. change (sniffer.lastErr t) with (sniffer.lastErr s) in *.
      change (sniffer.source t) with (sniffer.source s) in *.
      destruct (sniffer.replayWindow s) as [|x win] eqn:Hw; [simpl in Hlen; lia|].
      cbn [replay].
      destruct (replay (sniffer.lastErr s) ns (drop n (x :: win)) (sniffer.source s))
        as [rs src'] eqn:Hrep.
      simpl in *. by eexists.
    + assert (Hge' : sniffer.bufferSize s ≤ sniffer.bufferRead s) by lia.
      rewrite Reads_passthrough by done.
      rewrite replayWindow_nil by done. cbn [replay].
      eexists. by repeat split.
Qed.


(** A sniffing session: started by [reset(true)], the reads first go over
    the bytes the buffer holds and then pull from the source, and the buffer
    gains every byte pulled.  All along, the bytes handed to the reader are
    the first [served] bytes of the buffer. *)
Lemma Reads_sniffing ns s :
  wf s → sniffer.sniffing s = true →
  (sniffer.bufferRead s < sniffer.bufferSize s →
   sniffer.bufferSize s = bytes.Len (sniffer.buffer s)) →
  ∃ rs t,
    Reads ns s = Some (rs, t) ∧ wf t ∧ sniffer.sniffing t = true ∧
    (sniffer.bufferRead t < sniffer.bufferSize t →
     sniffer.bufferSize t = bytes.Len (sniffer.buffer t)) ∧
    take (served s) (bytes.contents (sniffer.buffer s)) ++ bytesOf rs =
      take (served t) (bytes.contents (sniffer.buffer t)) ∧
    length (bytesOf rs) ≤ sum_list ns ∧
    served t ≤ bytes.Len (sniffer.buffer t) ∧
    bytes.contents (sniffer.buffer s) `prefix_of` bytes.contents (sniffer.buffer t) ∧
    sniffer.bufferSize t = sniffer.bufferSize s.
Proof.
  revert s. induction ns as [|n ns IH]; intros s Hwf Hsn Hfull.
  - simpl. eexists _, _. split; [reflexivity|]. split_and!; try done.
    + unfold bytesOf; simpl. by rewrite app_nil_r.
    + unfold served. case_bool_decide; [|done].
      destruct Hwf as (_ & _ & Hin). specialize (Hin ltac:(done)). lia.
  - cbn [sniffer.Reads].
    destruct (decide (sniffer.bufferRead s < sniffer.bufferSize s)) as [Hlt|Hge].
    + (* over the bytes already buffered *)
      pose proof (length_replayWindow s Hwf) as Hlen.
      rewrite Read_replay by done.
      set (t := sniffer.mk _ _ _ _ _ _).
      destruct Hwf as (Hok & Hle & Hin). specialize (Hfull Hlt).
      assert (Hwt : wf t).
      { unfold wf, t; simpl. repeat split; [done | lia | intros _; lia]. }
      destruct (IH t Hwt Hsn)
        as (rs & t' & -> & Hwt' & Hsn' & Hfull' & Hb & Hl & Hs & Hp & Hbs).
      { unfold t; simpl. intros _. done. }
      eexists _, _. split; [reflexivity|]. split_and!; try done.
      * rewrite bytesOf_cons. cbn [fst]. rewrite <- Hb.
        rewrite app_assoc. f_equal.
        unfold served at 1. rewrite bool_decide_eq_true_2 by done.
        unfold sniffer.replayWindow. rewrite take_take, take_take_drop.
        unfold served, t; simpl. case_bool_decide.
        -- done.
        -- rewrite (take_ge _ (bytes.Len _)) by (rewrite length_contents; done).
           rewrite take_ge; [done|]. rewrite length_contents by done. lia.
      * rewrite bytesOf_cons, length_app, sum_list_cons. cbn [fst].
        rewrite length_take. lia.
    + (* from the source *)
      assert (Hge' : sniffer.bufferSize s ≤ sniffer.bufferRead s) by lia.
      rewrite Read_sniff by done. cbn zeta.
      set (r := (srcRead (sniffer.source s) n).1).
      set (t := sniffer.mk _ _ _ _ _ _).
      destruct Hwf as (Hok & Hle & Hin).
      assert (Hokt : bytes.ok (sniffer.buffer t)).
      { unfold t; simpl. case_bool_decide; [by apply Write_ok | done]. }
      assert (Hwt : wf t).
      { unfold wf, t; simpl. repeat split; [done | lia | lia]. }
      destruct (IH t Hwt eq_refl)
        as (rs & t' & -> & Hwt' & Hsn' & Hfull' & Hb & Hl & Hs & Hp & Hbs).
      { unfold t; simpl. lia. }
      eexists _, _. split; [reflexivity|]. split_and!; try done.
      * rewrite bytesOf_cons. rewrite <- Hb. rewrite app_assoc. f_equal.
        unfold served. rewrite !bool_decide_eq_false_2 by (unfold t; simpl; lia).
        rewrite !take_ge by (rewrite length_contents; done).
        unfold t; simpl. case_bool_decide as Hr.
        -- by rewrite Write_contents.
        -- destruct (r.1); [by rewrite app_nil_r | simpl in Hr; lia].
      * rewrite bytesOf_cons, length_app, sum_list_cons.
        pose proof (srcRead_le (sniffer.source s) n). fold r in H0. lia.
      * etrans; [|exact Hp]. unfold t; simpl. case_bool_decide; [|done].
        rewrite Write_contents by done. by apply prefix_app_r.
Qed.
End sniffer_runs.

(** ** The claims about the sniffer *)

(** Well-formedness and comparisons of the fields of a concrete state. *)
Ltac concrete_state :=
  unfold sniffer.wf, idle, bytes.ok, bytes.Len, bytes.Cap, afterHello, sniffer.new,
    sniffer.reset;
  simpl; repeat split; (lia || reflexivity).

(** [afterHello] is where the code gets by sniffing ["HELLO"] on a new
    connection and stopping: [startSniffing], one read of five bytes,
    [doneSniffing]. *)
Example afterHello_reached :
  ∃ s1,
    sniffer.Reads doublingCap [5] (sniffer.reset true (sniffer.new helloAtOnce))
      = Some ([(HELLO, None)], s1) ∧
    sniffer.reset false s1 = afterHello [].
Proof. eexists. split; [vm_compute; reflexivity | reflexivity]. Qed.

(** The sniffing controls of a connection are the two resets of its sniffer,
    and its [Read] is the sniffer's. *)
Lemma Conn_sniffing_controls {S : Type} `{Reader S} allocCap (m : Conn.t S) (n : nat) :
  Conn.buffer (Conn.startSniffing m) = sniffer.reset true (Conn.buffer m) ∧
  Conn.buffer (Conn.doneSniffing m) = sniffer.reset false (Conn.buffer m) ∧
  Conn.Conn (Conn.startSniffing m) = Conn.Conn m ∧
  Conn.Conn (Conn.doneSniffing m) = Conn.Conn m ∧
  fst <$> Conn.Read allocCap n m = fst <$> sniffer.Read allocCap n (Conn.buffer m).
Proof.
  split_and!; try reflexivity.
  unfold Conn.Read. by destruct (sniffer.Read allocCap n (Conn.buffer m)) as [[r b]|].
Qed.

(** A read below the ceiling does not depend on the source at all: whatever
    the read function of the source, the outcome is the same. *)
Lemma Read_replay_any_source {S : Type} (R1 R2 : Reader S) allocCap n (s : sniffer.t S) :
  sniffer.bufferRead s < sniffer.bufferSize s →
  @sniffer.Read S R1 allocCap n s = @sniffer.Read S R2 allocCap n s.
Proof.
  intros Hlt. unfold sniffer.Read. by rewrite !bool_decide_eq_true_2 by done.
Qed.

(** C10.  With replay bytes left ([bufferRead < bufferSize]) one [Read] hands
    back exactly [min(len(p), bufferSize - bufferRead)] bytes, all of them the
    next bytes of the buffer, with the stored [lastErr]; the source is not
    read (its state stays, and the outcome is the same for every source), so
    no byte of the source is mixed in, however large the caller's slice. *)
Theorem Read_with_replay_bytes_left {S : Type} `{Reader S} allocCap (n : nat)
    (s : sniffer.t S) :
  sniffer.wf s → sniffer.bufferRead s < sniffer.bufferSize s →
  ∃ out t,
    sniffer.Read allocCap n s = Some ((out, sniffer.lastErr s), t) ∧
    length out = n `min` (sniffer.bufferSize s - sniffer.bufferRead s) ∧
    out = take n (drop (sniffer.bufferRead s)
                    (take (sniffer.bufferSize s) (bytes.contents (sniffer.buffer s)))) ∧
    sniffer.source t = sniffer.source s ∧
    sniffer.buffer t = sniffer.buffer s ∧
    sniffer.bufferRead t = sniffer.bufferRead s + length out ∧
    sniffer.bufferSize t = sniffer.bufferSize s ∧
    ∀ R' : Reader S, @sniffer.Read S R' allocCap n s = Some ((out, sniffer.lastErr s), t).
Proof.
  intros Hwf Hlt. pose proof (length_replayWindow s Hwf) as Hlen.
  assert (Hout : length (take n (sniffer.replayWindow s))
                 = n `min` (sniffer.bufferSize s - sniffer.bufferRead s))
    by (rewrite length_take; lia).
  eexists _, _. split; [by apply Read_replay|]. split_and!; simpl; try done.
  - unfold sniffer.replayWindow. by rewrite skipn_firstn_comm.
  - by rewrite Hout.
  - intros R'. rewrite (Read_replay_any_source R' H) by done. by apply Read_replay.
Qed.

Lemma Read_with_replay_bytes_left_witness :
  sniffer.wf (afterHello [(LLO, None)]) ∧
  sniffer.bufferRead (afterHello [(LLO, None)])
    < sniffer.bufferSize (afterHello [(LLO, None)]) ∧
  ∃ out t,
    sniffer.Read doublingCap 8 (afterHello [(LLO, None)]) = Some ((out, None), t) ∧
    out = HELLO ∧ sniffer.source t = [(LLO, None)].
Proof.
  split; [concrete_state|].
  split; [concrete_state|].
  destruct (Read_with_replay_bytes_left doublingCap 8 (afterHello [(LLO, None)]))
    as (out & t & HR & _ & Hout & Hsrc & _).
  - concrete_state.
  - concrete_state.
  - exists out, t. split; [exact HR|]. split; [exact Hout | exact Hsrc].
Defined.

(** C3.  The well-formed states are kept by every [Read] and every [reset],
    and a [Read] from one of them does not panic.  In such a state, (1) while
    [bufferRead < bufferSize] a [Read] is served from the buffer and the
    source is not read; (2) once [bufferRead] has reached [bufferSize] with
    sniffing off, a [Read] and every [Read] after it is the corresponding read
    of the source, and from the first of them on the buffer is the zero
    buffer. *)
Theorem sniffer_invariant {S : Type} `{Reader S} allocCap (s : sniffer.t S) :
  sniffer.wf s →
  (∀ flag, sniffer.wf (sniffer.reset flag s)) ∧
  (∀ n, ∃ r t, sniffer.Read allocCap n s = Some (r, t) ∧ sniffer.wf t) ∧
  (sniffer.bufferRead s < sniffer.bufferSize s →
   ∀ n, ∃ t,
     sniffer.Read allocCap n s
       = Some ((take n (sniffer.replayWindow s), sniffer.lastErr s), t) ∧
     sniffer.source t = sniffer.source s ∧
     ∀ R' : Reader S,
       @sniffer.Read S R' allocCap n s
         = Some ((take n (sniffer.replayWindow s), sniffer.lastErr s), t)) ∧
  (sniffer.bufferRead s = sniffer.bufferSize s → sniffer.sniffing s = false →
   ∀ n ns, ∃ t,
     sniffer.Reads allocCap (n :: ns) s
       = Some ((srcReads (n :: ns) (sniffer.source s)).1, t) ∧
     sniffer.source t = (srcReads (n :: ns) (sniffer.source s)).2 ∧
     sniffer.buffer t = bytes.zero ∧
     sniffer.bufferRead t = sniffer.bufferSize t ∧
     sniffer.sniffing t = false).
Proof.
  intros Hwf. split_and!.
  - intros flag. apply wf_reset. apply Hwf.
  - intros n. by apply Read_wf.
  - intros Hlt n. eexists. split; [by apply Read_replay|]. split; [done|].
    intros R'. rewrite (Read_replay_any_source R' H) by done. by apply Read_replay.
  - intros Heq Hsn n ns. eexists. split; [apply Reads_passthrough; (done || lia)|].
    simpl. split_and!; try done.
    destruct (bytes.Cap (sniffer.buffer s) =? 0) eqn:Hc; simpl; [|done].
    apply ok_Cap_0; [apply Hwf | by apply Nat.eqb_eq].
Qed.

Lemma sniffer_invariant_witness :
  sniffer.wf (afterHello [(LLO, None)]) ∧
  ∃ t,
    sniffer.Read doublingCap 3 (afterHello [(LLO, None)])
      = Some ((take 3 HELLO, None), t) ∧
    sniffer.source t = [(LLO, None)].
Proof.
  assert (Hwf : sniffer.wf (afterHello [(LLO, None)])) by concrete_state.
  split; [exact Hwf|].
  destruct (sniffer_invariant doublingCap (afterHello [(LLO, None)]) Hwf)
    as (_ & _ & Hreplay & _).
  destruct (Hreplay ltac:(concrete_state) 3) as (t & HR & Hsrc & _).
  exists t. split; [exact HR | exact Hsrc].
Defined.

(** A replay falls into two parts: [k] reads that carry the stored error and
    whose bytes are the beginning of the window (all of the window when more
    reads follow), and then reads of the source. *)
Lemma replay_split {S : Type} `{Reader S} (err : goerror) (ns : list nat)
    (window : list Byte.byte) (src : S) :
  ∃ k,
    Forall (λ r : readResult, r.2 = err) (take k (replay err ns window src).1) ∧
    bytesOf (take k (replay err ns window src).1) `prefix_of` window ∧
    (k < length ns → bytesOf (take k (replay err ns window src).1) = window) ∧
    drop k (replay err ns window src).1 = (srcReads (drop k ns) src).1 ∧
    (replay err ns window src).2 = (srcReads (drop k ns) src).2.
Proof.
  revert window. induction ns as [|n ns IH]; intros window.
  - exists 0. simpl. split_and!; try done; [apply prefix_nil | lia].
  - destruct window as [|x win].
    + exists 0. cbn [replay]. rewrite take_0, !drop_0. by split_and!.
    + destruct (IH (drop n (x :: win))) as (k & Herr & Hpre & Hall & Hdrop & Hsrc).
      exists (Datatypes.S k). cbn [replay].
      destruct (replay err ns (drop n (x :: win)) src) as [rs src'].
      cbn [fst snd] in *. rewrite firstn_cons, bytesOf_cons. cbn [fst].
      split_and!; try done.
      * by constructor.
      * rewrite <- (take_drop n (x :: win)) at 2. by apply prefix_app.
      * intros Hk. simpl in Hk. specialize (Hall ltac:(lia)).
        etrans; [apply (f_equal (app _)), Hall | apply take_drop].
Qed.

(** The claim C7 as it is worded fails in its last part: on a connection
    whose first sniffing session has read ["HELLO"], a second session
    ([reset(true)] again) without any read, closed by [reset(false)], puts the
    five bytes of the first session up for replay, although no byte has been
    accumulated since the matching [reset(true)]. *)
Lemma replay_holds_bytes_of_earlier_session :
  ∃ s1 s2,
    sniffer.Reads doublingCap [5] (sniffer.reset true (sniffer.new helloAtOnce))
      = Some ([(HELLO, None)], s1) ∧
    sniffer.Reads doublingCap [] (sniffer.reset true (sniffer.reset false s1))
      = Some ([], s2) ∧
    sniffer.bufferSize (sniffer.reset false s2) = 5 ∧
    sniffer.replayWindow (sniffer.reset false s2) = HELLO ∧
    sniffer.replayWindow (sniffer.reset false s2) ≠ bytesOf [].
Proof.
  eexists _, _. split; [vm_compute; reflexivity|].
  split; [reflexivity|]. split; [reflexivity|]. split; [reflexivity | discriminate].
Qed.

(** C7, amended.  [reset(flag)] sets the sniffing flag to [flag], the cursor
    to 0 and the ceiling to the length the buffer has at that moment; the
    buffer itself, the source and the stored error are left as they are.  So
    after a sniffing session ([reset(true)], then reads) the [reset(false)]
    puts the whole buffer up for replay: the bytes the buffer held at the
    [reset(true)], followed by what has been added since.  The bytes handed
    to the reads of the session are the beginning of it, and they are all of
    it for a session begun on an empty buffer. *)
Theorem reset_sets_flag_cursor_ceiling {S : Type} `{Reader S} allocCap
    (s : sniffer.t S) (flag : bool) :
  sniffer.sniffing (sniffer.reset flag s) = flag ∧
  sniffer.bufferRead (sniffer.reset flag s) = 0 ∧
  sniffer.bufferSize (sniffer.reset flag s) = bytes.Len (sniffer.buffer s) ∧
  sniffer.buffer (sniffer.reset flag s) = sniffer.buffer s ∧
  sniffer.source (sniffer.reset flag s) = sniffer.source s ∧
  sniffer.lastErr (sniffer.reset flag s) = sniffer.lastErr s ∧
  ∀ ns, bytes.ok (sniffer.buffer s) →
    ∃ rs t,
      sniffer.Reads allocCap ns (sniffer.reset true s) = Some (rs, t) ∧
      sniffer.bufferSize (sniffer.reset false t) = bytes.Len (sniffer.buffer t) ∧
      sniffer.replayWindow (sniffer.reset false t) = bytes.contents (sniffer.buffer t) ∧
      bytes.contents (sniffer.buffer s) `prefix_of` bytes.contents (sniffer.buffer t) ∧
      bytesOf rs `prefix_of` bytes.contents (sniffer.buffer t) ∧
      (bytes.Len (sniffer.buffer s) = 0 →
       sniffer.replayWindow (sniffer.reset false t) = bytesOf rs ∧
       sniffer.bufferSize (sniffer.reset false t) = length (bytesOf rs)).
Proof.
  split_and!; try reflexivity.
  intros ns Hok.
  destruct (Reads_sniffing allocCap ns (sniffer.reset true s))
    as (rs & t & HR & Hwt & Hsn & Hfull & Hb & Hl & Hs & Hp & Hbs);
    [by apply wf_reset | done | done |].
  exists rs, t. split; [done|]. split; [done|].
  assert (Hlen : length (bytes.contents (sniffer.buffer t)) = bytes.Len (sniffer.buffer t))
    by (apply length_contents, Hwt).
  assert (Hwin : sniffer.replayWindow (sniffer.reset false t)
                 = bytes.contents (sniffer.buffer t)).
  { unfold sniffer.replayWindow, sniffer.reset; simpl.
    rewrite drop_0, Nat.sub_0_r. apply take_ge. lia. }
  assert (Hserved : served (sniffer.reset true s) = 0)
    by (unfold served, sniffer.reset; simpl; case_bool_decide; lia).
  rewrite Hserved, take_0 in Hb. simpl in Hb.
  split; [done|]. split; [done|]. split; [rewrite Hb; apply prefix_take|].
  intros Hempty.
  assert (Hrs : bytesOf rs = bytes.contents (sniffer.buffer t)).
  { rewrite Hb. unfold served. simpl in Hbs. rewrite bool_decide_eq_false_2 by lia.
    apply take_ge. lia. }
  rewrite Hwin, Hrs. split; [done|]. simpl. by rewrite Hlen.
Qed.

Lemma reset_sets_flag_cursor_ceiling_witness :
  bytes.ok (sniffer.buffer (sniffer.new helloSource)) ∧
  bytes.Len (sniffer.buffer (sniffer.new helloSource)) = 0 ∧
  ∃ rs t,
    sniffer.Reads doublingCap [2; 3] (sniffer.reset true (sniffer.new helloSource))
      = Some (rs, t) ∧
    sniffer.replayWindow (sniffer.reset false t) = bytesOf rs ∧
    sniffer.bufferSize (sniffer.reset false t) = length (bytesOf rs).
Proof.
  split; [concrete_state|]. split; [reflexivity|].
  destruct (reset_sets_flag_cursor_ceiling doublingCap (sniffer.new helloSource) true)
    as (_ & _ & _ & _ & _ & _ & Hrun).
  destruct (Hrun [2; 3]) as (rs & t & HR & _ & _ & _ & _ & Hempty); [concrete_state|].
  destruct (Hempty eq_refl) as [Hwin Hsize].
  exists rs, t. split; [exact HR|]. split; [exact Hwin | exact Hsize].
Defined.

(** The claim C8 as it is worded fails on a sniffer that still holds the
    bytes of an earlier session.  On [helloThenLlo]: sniff ["HELLO"], stop,
    and let the consumer read it back; the cursor is then at the ceiling, the
    buffer is still held, and the next read gives ["LLO"] from the source.
    With [reset(true)] and [reset(false)] before it, the same read gives
    ["HELLO"] from the buffer once more. *)
Lemma start_stop_replays_earlier_bytes_again :
  ∃ s1 s2 t t',
    sniffer.Reads doublingCap [5] (sniffer.reset true (sniffer.new helloThenLlo))
      = Some ([(HELLO, None)], s1) ∧
    sniffer.Reads doublingCap [5] (sniffer.reset false s1) = Some ([(HELLO, None)], s2) ∧
    sniffer.sniffing s2 = false ∧
    sniffer.Read doublingCap 5 s2 = Some ((LLO, None), t) ∧
    sniffer.Read doublingCap 5 (sniffer.reset false (sniffer.reset true s2))
      = Some ((HELLO, None), t') ∧
    sniffer.source t' ≠ sniffer.source t.
Proof.
  eexists _, _, _, _. split; [vm_compute; reflexivity|].
  split; [vm_compute; reflexivity|]. split; [reflexivity|].
  split; [vm_compute; reflexivity|]. split; [vm_compute; reflexivity|].
  discriminate.
Qed.

(** C8, amended.  On a well-formed sniffer with sniffing off that has nothing
    buffered, or whose replay of the whole buffer has not begun, [reset(true)]
    followed at once by [reset(false)] changes nothing a reader can see: any
    sequence of reads gives the results it would have given without the two
    calls and leaves the same source, buffer, flag and stored error; with
    nothing buffered these results are those of the source.  With the
    cursor at 0, as on a sniffer never used for sniffing, the two calls give
    back the very same state.  Neither call touches the buffer, and with a
    buffer of capacity 0 the read that follows leaves it as it is. *)
Theorem start_stop_without_reads {S : Type} `{Reader S} allocCap (s : sniffer.t S) :
  sniffer.wf s →
  rested s →
  (∀ ns, ∃ rs t t',
     sniffer.Reads allocCap ns s = Some (rs, t) ∧
     sniffer.Reads allocCap ns (sniffer.reset false (sniffer.reset true s)) = Some (rs, t') ∧
     (bytes.Len (sniffer.buffer s) = 0 → rs = (srcReads ns (sniffer.source s)).1) ∧
     sniffer.source t' = sniffer.source t ∧
     sniffer.buffer t' = sniffer.buffer t ∧
     sniffer.sniffing t' = sniffer.sniffing t ∧
     sniffer.lastErr t' = sniffer.lastErr t) ∧
  (sniffer.bufferRead s = 0 →
   sniffer.reset false (sniffer.reset true s) = s) ∧
  sniffer.buffer (sniffer.reset false (sniffer.reset true s)) = sniffer.buffer s ∧
  (bytes.Cap (sniffer.buffer s) = 0 →
   ∀ n r t,
     sniffer.Read allocCap n (sniffer.reset false (sniffer.reset true s)) = Some (r, t) →
     sniffer.buffer t = sniffer.buffer s).
Proof.
  intros Hwf (Hsn & Hcase). unfold bytes.Len in Hcase.
  assert (Hsame : sniffer.bufferRead s = 0 →
                  sniffer.reset false (sniffer.reset true s) = s).
  { intros Hr. destruct s as [src buf br bs sn le]; simpl in *. subst.
    unfold sniffer.reset, bytes.Len; simpl.
    destruct Hcase as [[Hlen Hge]|[_ Hbs]]; [|by rewrite Hbs].
    rewrite Hlen. f_equal. lia. }
  split_and!.
  - intros ns. destruct Hcase as [[Hlen Hge]|[Hbr Hbs]].
    + pose proof (Reads_passthrough allocCap ns s Hge Hsn) as HR.
      pose proof (Reads_passthrough allocCap ns (sniffer.reset false (sniffer.reset true s))
                    ltac:(simpl; unfold bytes.Len; lia) eq_refl) as HR'.
      simpl in HR'. eexists _, _, _.
      split; [exact HR|]. split; [exact HR'|]. split_and!; reflexivity.
    + destruct (Reads_wf allocCap ns s Hwf) as (rs & t & HR & _).
      exists rs, t, t. rewrite (Hsame Hbr). split; [exact HR|]. split; [exact HR|].
      split_and!; try reflexivity.
      intros Hlen. unfold bytes.Len in Hlen.
      rewrite Reads_passthrough in HR by (done || lia). by injection HR as <- _.
  - exact Hsame.
  - reflexivity.
  - intros Hcap n r t.
    assert (Hlen : bytes.len (sniffer.buffer s) = 0).
    { destruct Hwf as (Hok & _). unfold bytes.ok in Hok. lia. }
    rewrite Read_passthrough by (simpl; unfold bytes.Len; (done || lia)).
    intros [= <- <-]. simpl. by rewrite Hcap.
Qed.

Lemma start_stop_without_reads_witness :
  sniffer.wf (sniffer.new helloSource) ∧
  rested (sniffer.new helloSource) ∧
  sniffer.reset false (sniffer.reset true (sniffer.new helloSource))
    = sniffer.new helloSource ∧
  ∃ t t',
    sniffer.Reads doublingCap [5] (sniffer.new helloSource) = Some ([(HE, None)], t) ∧
    sniffer.Reads doublingCap [5]
        (sniffer.reset false (sniffer.reset true (sniffer.new helloSource)))
      = Some ([(HE, None)], t') ∧
    sniffer.buffer t' = sniffer.buffer t.
Proof.
  assert (Hwf : sniffer.wf (sniffer.new helloSource)) by concrete_state.
  assert (Hrested : rested (sniffer.new helloSource)).
  { split; [reflexivity|]. left. split; [reflexivity | simpl; lia]. }
  split; [exact Hwf|]. split; [exact Hrested|].
  destruct (start_stop_without_reads doublingCap (sniffer.new helloSource) Hwf Hrested)
    as (Hruns & Hsame & _ & _).
  split; [exact (Hsame eq_refl)|].
  destruct (Hruns [5]) as (rs & t & t' & HR & HR' & Hrs & _ & Hbuf & _).
  exists t, t'. rewrite (Hrs eq_refl) in HR, HR'.
  split; [exact HR|]. split; [exact HR' | exact Hbuf].
Defined.




(** ** The multiplexing listener *)
Section listener_facts.
Variable ErrNotMatched_net : connId → option netFlags.
Implicit Types (m : Listener.t) (w : World) (r : rootListener) (c : connId).

Local Abbreviation handleErr := (Listener.handleErr ErrNotMatched_net).
Local Abbreviation serve := (Listener.serve ErrNotMatched_net).
Local Abbreviation acceptLoop := (Listener.acceptLoop ErrNotMatched_net).
Local Abbreviation runTasks := (Listener.runTasks ErrNotMatched_net).
Local Abbreviation Serve := (Listener.Serve ErrNotMatched_net).
Local Abbreviation continues := (Listener.continues ErrNotMatched_net).
Local Abbreviation goesOn := (Listener.goesOn ErrNotMatched_net).

Lemma handleErr_world m err w : (handleErr m err w).2 = emit (policyCall err) w.
Proof.
  unfold Listener.handleErr. destruct (Listener.errorHandler m err); simpl; [|done].
  by destruct (Listener.asNetError _ err).
Qed.

Lemma handleErr_continues m err w : (handleErr m err w).1 = true ↔ continues m err.
Proof.
  unfold Listener.handleErr, Listener.continues.
  destruct (Listener.errorHandler m err); simpl.
  - destruct (Listener.asNetError _ err) as [ne|]; simpl.
    + split; [intros Ht; split; [done | by exists ne]|].
      intros (_ & ne' & [= <-] & Ht). done.
    + split; [done|]. by intros (_ & ne' & ? & _).
  - split; [done | by intros [? _]].
Qed.

Lemma handleErr_stops m err w : ¬ continues m err → (handleErr m err w).1 = false.
Proof.
  intros Hn. destruct (handleErr m err w).1 eqn:Hh; [|done].
  by apply handleErr_continues in Hh.
Qed.

Lemma handleErr_eq m err w :
  handleErr m err w = ((handleErr m err w).1, emit (policyCall err) w).
Proof. rewrite <- (handleErr_world m err w). by destruct (handleErr m err w). Qed.

(** One turn of the loop on an error. *)
Lemma acceptLoop_error m err r tasks wg w :
  acceptLoop m (inr err :: r) tasks wg w =
    if (handleErr m err w).1
    then acceptLoop m r tasks wg (emit (policyCall err) w)
    else (Some err, tasks, wg, emit (policyCall err) w).
Proof.
  cbn [Listener.acceptLoop]. rewrite (handleErr_eq m err w). cbn [fst].
  by destruct (handleErr m err w).1.
Qed.

(** Over results after which the loop goes on, the loop reaches the results
    that follow; it has not touched [closing] or the facades, and the counter
    has grown by the number of tasks started. *)
Lemma acceptLoop_goesOn m r0 r tasks wg w :
  Forall (goesOn m) r0 →
  ∃ tasks' w',
    acceptLoop m (r0 ++ r) tasks wg w
      = acceptLoop m r (tasks ++ tasks') (wg + length tasks') w' ∧
    closing w' = closing w ∧ facades w' = facades w.
Proof.
  revert tasks wg w. induction r0 as [|x r0 IH]; intros tasks wg w Hall.
  - exists [], w. simpl. by rewrite app_nil_r, Nat.add_0_r.
  - apply Forall_cons in Hall as [Hx Hall]. destruct x as [c|err].
    + destruct (IH (tasks ++ [c]) (Datatypes.S wg) w Hall) as (tasks' & w' & Heq & Hc & Hf).
      exists (c :: tasks'), w'. split; [|done].
      simpl. rewrite Heq, <- app_assoc. simpl. f_equal. lia.
    + destruct (IH tasks wg (emit (policyCall err) w) Hall) as (tasks' & w' & Heq & Hc & Hf).
      exists tasks', w'. split; [|done].
      rewrite <- app_comm_cons, acceptLoop_error.
      apply handleErr_continues with (w := w) in Hx. by rewrite Hx.
Qed.

Lemma serve_eq m c wg w :
  serve m c (Datatypes.S wg) w =
    Some (wg,
          mkWorld
            (events w ++ connClose c :: policyCall (ErrNotMatched c)
               :: (if (handleErr m (ErrNotMatched c) w).1 then [] else [rootClose]))
            (closing w) (facades w)).
Proof.
  unfold Listener.serve. rewrite (handleErr_eq m _ (emit _ w)). cbn [fst snd].
  assert (Hsame : (handleErr m (ErrNotMatched c) (emit (connClose c) w)).1
                  = (handleErr m (ErrNotMatched c) w).1).
  { unfold Listener.handleErr. destruct (negb _); [done|].
    by destruct (Listener.asNetError _ _). }
  rewrite Hsame. destruct (handleErr m (ErrNotMatched c) w).1; simpl.
  - unfold emit; simpl. by rewrite <- !app_assoc.
  - unfold emit; simpl. by rewrite <- !app_assoc.
Qed.

(** The tasks started bring the counter down by their number and leave
    [closing] and the facades alone. *)
Lemma runTasks_counter m tasks k w :
  ∃ w', runTasks m tasks (length tasks + k) w = Some (k, w') ∧
        closing w' = closing w ∧ facades w' = facades w.
Proof.
  revert w. induction tasks as [|c tasks IH]; intros w.
  - by exists w.
  - cbn [Listener.runTasks length Nat.add]. rewrite serve_eq.
    destruct (IH (mkWorld
                    (events w ++ connClose c :: policyCall (ErrNotMatched c)
                       :: (if (handleErr m (ErrNotMatched c) w).1 then [] else [rootClose]))
                    (closing w) (facades w))) as (w' & -> & Hc & Hf).
    by exists w'.
Qed.

(** The loop alone leaves [closing] and the facades alone. *)
Lemma acceptLoop_keeps m r tasks wg w :
  closing (acceptLoop m r tasks wg w).2 = closing w ∧
  facades (acceptLoop m r tasks wg w).2 = facades w ∧
  (acceptLoop m r tasks wg w).1.2 + length tasks
    = wg + length (acceptLoop m r tasks wg w).1.1.2.
Proof.
  revert tasks wg w. induction r as [|[c|err] r IH]; intros tasks wg w.
  - simpl. split_and!; [done | done | lia].
  - cbn [Listener.acceptLoop].
    destruct (IH (tasks ++ [c]) (Datatypes.S wg) w) as (Hc & Hf & Hn).
    split_and!; [done | done |]. rewrite length_app in Hn. simpl in Hn. lia.
  - rewrite acceptLoop_error. destruct (handleErr m err w).1.
    + destruct (IH tasks wg (emit (policyCall err) w)) as (Hc & Hf & Hn).
      by split_and!.
    + simpl. split_and!; [done | done | lia].
Qed.

(** [Serve] leaves the facades as they are, however it ends. *)
Lemma Serve_keeps_facades m r w : facades (Serve m r w).2 = facades w.
Proof.
  unfold Listener.Serve.
  pose proof (acceptLoop_keeps m r [] 0 w) as (Hc & Hf & Hn).
  destruct (acceptLoop m r [] 0 w) as [[[res tasks] wg] w1]. simpl in *.
  destruct res as [err|]; [|done].
  destruct (chan.close (closing w1)) as [cl|]; [|done].
  assert (Hwg : wg = length tasks + 0) by lia. rewrite Hwg.
  destruct (runTasks_counter m tasks 0 (mkWorld (events w1) cl (facades w1)))
    as (w3 & -> & _ & Hf3).
  simpl. by rewrite Hf3.
Qed.

(** When the loop meets an error after which it does not go on, [Serve]
    returns this error, provided [closing] has not been closed before. *)
Lemma Serve_returns m r0 err r w :
  Forall (goesOn m) r0 → ¬ continues m err → chan.closed (closing w) = false →
  (Serve m (r0 ++ inr err :: r) w).1 = Returns err.
Proof.
  intros Hall Hstop Hopen. unfold Listener.Serve.
  destruct (acceptLoop_goesOn m r0 (inr err :: r) [] 0 w Hall)
    as (tasks' & w' & -> & Hc & Hf).
  rewrite acceptLoop_error, handleErr_stops by done. simpl.
  unfold chan.close. simpl. rewrite Hc, Hopen.
  destruct (runTasks_counter m tasks' 0
              (mkWorld (events w' ++ [policyCall err])
                 (chan.mk (chan.queue (closing w)) (chan.capacity (closing w)) true)
                 (facades w'))) as (w3 & Hrun & _).
  rewrite Nat.add_0_r in Hrun. by rewrite Hrun.
Qed.

(** When all results so far let the loop go on, [Serve] is still in the
    loop, blocked in the next [Accept]. *)
Lemma Serve_blocks m r0 w :
  Forall (goesOn m) r0 → (Serve m r0 w).1 = Blocks.
Proof.
  intros Hall. unfold Listener.Serve.
  destruct (acceptLoop_goesOn m r0 [] [] 0 w Hall) as (tasks' & w' & Heq & _).
  rewrite app_nil_r in Heq. rewrite Heq. reflexivity.
Qed.
End listener_facts.

(** ** The claims about the listener *)

(** C2.  On an error of the accept call, [handleErr] answers true exactly
    when the policy says to go on and the error is a [net.Error] that is
    temporary.  In that case the loop goes to its next turn, and [Serve] has
    not returned when no further result comes.  In every other case (the
    policy says stop, or the error is not temporary, or it is no [net.Error])
    [Serve] returns this very error. *)
Theorem Serve_on_accept_error (ErrNotMatched_net : connId → option netFlags)
    (m : Listener.t) (err : error) (r0 r : rootListener) (w : World) :
  Forall (Listener.goesOn ErrNotMatched_net m) r0 →
  chan.closed (closing w) = false →
  ((Listener.handleErr ErrNotMatched_net m err w).1 = true ↔
   Listener.errorHandler m err = true ∧
   ∃ ne, Listener.asNetError ErrNotMatched_net err = Some ne ∧ Temporary ne = true) ∧
  (Listener.continues ErrNotMatched_net m err →
   (∀ tasks wg,
      Listener.acceptLoop ErrNotMatched_net m (inr err :: r) tasks wg w
        = Listener.acceptLoop ErrNotMatched_net m r tasks wg (emit (policyCall err) w)) ∧
   (Listener.Serve ErrNotMatched_net m (r0 ++ [inr err]) w).1 = Blocks) ∧
  (¬ Listener.continues ErrNotMatched_net m err →
   (Listener.Serve ErrNotMatched_net m (r0 ++ inr err :: r) w).1 = Returns err).
Proof.
  intros Hall Hopen. split_and!.
  - apply handleErr_continues.
  - intros Hc. split.
    + intros tasks wg. rewrite acceptLoop_error.
      apply handleErr_continues with (w := w) in Hc. by rewrite Hc.
    + apply Serve_blocks. apply Forall_app. split; [done|]. by constructor.
  - intros Hstop. by apply Serve_returns.
Qed.

Lemma Serve_on_accept_error_witness :
  Forall (Listener.goesOn temporaryNotMatched defaultListener) [inl 1] ∧
  chan.closed (closing Listener.newWorld) = false ∧
  (Listener.Serve temporaryNotMatched defaultListener [inl 1; inr errClosed]
     Listener.newWorld).1 = Returns errClosed.
Proof.
  assert (Hall : Forall (Listener.goesOn temporaryNotMatched defaultListener) [inl 1])
    by (repeat constructor).
  split; [exact Hall|]. split; [reflexivity|].
  destruct (Serve_on_accept_error temporaryNotMatched defaultListener errClosed
              [inl 1] [] Listener.newWorld Hall eq_refl) as (_ & _ & Hstop).
  apply Hstop. intros (_ & ne & Hne & Ht). vm_compute in Hne.
  injection Hne as <-. discriminate Ht.
Defined.




(** C6 (what the code does).  The queue of a facade made by [ServeAsync] is
    open, and neither [Serve], however it ends, nor [Close] nor a connection
    task does anything to a facade: after the owning listener has shut down
    the queue is still open and an [Accept] on the facade blocks. *)
Theorem facade_queue_is_never_closed (ErrNotMatched_net : connId → option netFlags)
    (m : Listener.t) (r : rootListener) (closeErr : goerror) (c : connId) (wg : nat)
    (w : World) :
  let ml := (Listener.ServeAsync m w).1 in
  let w1 := (Listener.ServeAsync m w).2 in
  chan.closed (muxListener.connections ml) = false ∧
  facades w1 = facades w ++ [ml] ∧
  facades (Listener.Serve ErrNotMatched_net m r w1).2 = facades w1 ∧
  facades (Listener.Close m closeErr w1).2 = facades w1 ∧
  (∀ wg' w', Listener.serve ErrNotMatched_net m c wg w1 = Some (wg', w') →
             facades w' = facades w1) ∧
  muxListener.Accept ml = None.
Proof.
  simpl. split_and!; try done.
  - apply Serve_keeps_facades.
  - intros wg' w'. destruct wg as [|wg].
    + unfold Listener.serve. by destruct (Listener.handleErr _ _ _ _).
    + rewrite serve_eq. intros [= _ <-]. reflexivity.
Qed.

(** C6 at a concrete run: a facade is made, the bound listener is closed, the
    accept call fails for good and [Serve] returns; the facade is still there
    with its queue open, and its [Accept] blocks instead of giving
    [ErrListenerClosed]. *)
Lemma facade_open_after_shutdown :
  let ml := (Listener.ServeAsync defaultListener Listener.newWorld).1 in
  let w1 := (Listener.ServeAsync defaultListener Listener.newWorld).2 in
  let w2 := (Listener.Close defaultListener None w1).2 in
  let res := Listener.Serve temporaryNotMatched defaultListener [inr errClosed] w2 in
  res.1 = Returns errClosed ∧
  chan.closed (closing res.2) = true ∧
  facades res.2 = [ml] ∧
  chan.closed (muxListener.connections ml) = false ∧
  muxListener.Accept ml = None.
Proof. vm_compute. by split_and!. Qed.

(** No chain of calls leaves a set of functions that holds the callees of
    its members. *)
Lemma reaches_within (P : fn → bool) f h :
  (∀ a b, P a = true → b ∈ callees a → P b = true) →
  reaches f h → P f = true → P h = true.
Proof.
  intros Hclosed Hr. induction Hr as [f|f g h Hfg Hgh IH]; [done|].
  intros Hf. apply IH. by apply (Hclosed f g).
Qed.

Lemma acceptSide_closed a b :
  acceptSide a = true → b ∈ callees a → acceptSide b = true.
Proof.
  destruct a; simpl; try discriminate; intros _ Hb;
    repeat (apply elem_of_cons in Hb as [->|Hb]; [done|]);
    by apply elem_of_nil in Hb.
Qed.

(** C9.  [Listener.Accept] gives back what [m.root.Accept()] gives, the
    result and the state of the bound listener alike, and the loop of [Serve]
    hands each connection to its task as it came.  No chain of calls leads
    from [Accept] or from [Serve] to [newConn], [startSniffing] or
    [doneSniffing]. *)
Theorem Accept_returns_root_connection (ErrNotMatched_net : connId → option netFlags)
    (m : Listener.t) (r : rootListener) (c : connId) (tasks : list connId) (wg : nat)
    (w : World) :
  Listener.Accept m r = root_Accept r ∧
  Listener.Accept m (inl c :: r) = Some (inl c, r) ∧
  Listener.acceptLoop ErrNotMatched_net m (inl c :: r) tasks wg w
    = Listener.acceptLoop ErrNotMatched_net m r (tasks ++ [c]) (Datatypes.S wg) w ∧
  ¬ reaches f_Listener_Accept f_newConn ∧
  ¬ reaches f_Listener_Accept f_Conn_startSniffing ∧
  ¬ reaches f_Listener_Accept f_Conn_doneSniffing ∧
  ¬ reaches f_Listener_Serve f_newConn ∧
  ¬ reaches f_Listener_Serve f_Conn_startSniffing ∧
  ¬ reaches f_Listener_Serve f_Conn_doneSniffing.
Proof.
  split_and!; try reflexivity;
    intros Hr; by apply (reaches_within acceptSide _ _ acceptSide_closed) in Hr.
Qed.

(** ** The claims about the secondary listener *)

(** The claim C4 as it is worded fails: on a queue that was closed while it
    held connection 7, the next [Accept] returns this connection and no
    error. *)
Lemma Accept_on_closed_queue_returns_buffered :
  chan.send 7 (chan.make 1024) = Returns (chan.mk [7] 1024 false) ∧
  chan.close (chan.mk [7] 1024 false) = Some (muxListener.connections closedWithOne) ∧
  chan.closed (muxListener.connections closedWithOne) = true ∧
  muxListener.Accept closedWithOne
    = Some ((Some 7, None), muxListener.mk (chan.mk [] 1024 true)) ∧
  muxListener.Accept closedWithOne
    ≠ Some ((None, Some ErrListenerClosed), closedWithOne).
Proof. split_and!; try reflexivity. discriminate. Qed.

Lemma Accept_closed_empty (l : muxListener.t) :
  chan.closed (muxListener.connections l) = true →
  chan.queue (muxListener.connections l) = [] →
  muxListener.Accept l = Some ((None, Some ErrListenerClosed), l).
Proof.
  destruct l as [[q cap cl]]; simpl. intros -> ->. reflexivity.
Qed.

(** On a closed queue [k] calls of [Accept] first return the connections
    still held, oldest first and without error, and then the sentinel. *)
Lemma Accepts_closed (k : nat) (l : muxListener.t) :
  chan.closed (muxListener.connections l) = true →
  muxListener.Accepts k l =
    Some (((λ c, (Some c, None)) <$> take k (chan.queue (muxListener.connections l)))
            ++ replicate (k - length (chan.queue (muxListener.connections l)))
                 (None, Some ErrListenerClosed),
          muxListener.mk
            (chan.mk (drop k (chan.queue (muxListener.connections l)))
               (chan.capacity (muxListener.connections l)) true)).
Proof.
  revert l. induction k as [|k IH]; intros [[q cap cl]]; simpl; intros ->.
  - by rewrite drop_0.
  - destruct q as [|c q].
    + pose proof (IH (muxListener.mk (chan.mk [] cap true)) eq_refl) as IH'.
      simpl in IH'. rewrite take_nil, drop_nil in IH'. simpl in IH'.
      rewrite Nat.sub_0_r in IH'.
      unfold muxListener.Accept; simpl. by rewrite IH'.
    + pose proof (IH (muxListener.mk (chan.mk q cap true)) eq_refl) as IH'.
      simpl in IH'. unfold muxListener.Accept; simpl. by rewrite IH'.
Qed.

(** C4, amended.  After the queue of a facade has been closed: an [Accept]
    that was pending returns the sentinel [ErrListenerClosed]; so does every
    [Accept] on a queue that holds no connection, and the queue stays as it
    is; connections still held at the close are returned first, oldest first
    and without error, and every later [Accept] returns the sentinel.  The
    sentinel is a [net.Error] whose [Temporary()] and [Timeout()] are both
    false. *)
Theorem Accept_after_close (ErrNotMatched_net : connId → option netFlags)
    (l : muxListener.t) (k : nat) :
  chan.closed (muxListener.connections l) = true →
  (chan.queue (muxListener.connections l) = [] →
   muxListener.Accept l = Some ((None, Some ErrListenerClosed), l) ∧
   muxListener.Accepts k l
     = Some (replicate k (None, Some ErrListenerClosed), l)) ∧
  muxListener.Accepts k l =
    Some (((λ c, (Some c, None)) <$> take k (chan.queue (muxListener.connections l)))
            ++ replicate (k - length (chan.queue (muxListener.connections l)))
                 (None, Some ErrListenerClosed),
          muxListener.mk
            (chan.mk (drop k (chan.queue (muxListener.connections l)))
               (chan.capacity (muxListener.connections l)) true)) ∧
  (∀ l0 ch,
     muxListener.Accept l0 = None →
     chan.close (muxListener.connections l0) = Some ch →
     muxListener.Accept (muxListener.mk ch)
       = Some ((None, Some ErrListenerClosed), muxListener.mk ch)) ∧
  Listener.asNetError ErrNotMatched_net ErrListenerClosed = Some (NetFlags false false) ∧
  errListenerClosed_Temporary "mux: listener closed" = false ∧
  errListenerClosed_Timeout "mux: listener closed" = false.
Proof.
  intros Hcl. split_and!; try reflexivity.
  - intros Hq. split; [by apply Accept_closed_empty|].
    rewrite Accepts_closed by done. rewrite Hq, take_nil, drop_nil. simpl.
    rewrite Nat.sub_0_r. destruct l as [[q cap cl]]; simpl in *. by subst.
  - by apply Accepts_closed.
  - intros [[q cap cl]] ch. unfold muxListener.Accept, chan.recv, chan.close; simpl.
    destruct q as [|c q]; [|discriminate]. destruct cl; [discriminate|].
    intros _ [= <-]. reflexivity.
Qed.

Lemma Accept_after_close_witness :
  chan.closed (muxListener.connections closedWithOne) = true ∧
  muxListener.Accepts 3 closedWithOne
    = Some ([(Some 7, None); (None, Some ErrListenerClosed);
             (None, Some ErrListenerClosed)],
            muxListener.mk (chan.mk [] 1024 true)).
Proof.
  split; [reflexivity|].
  destruct (Accept_after_close temporaryNotMatched closedWithOne 3 eq_refl)
    as (_ & Hk & _).
  exact Hk.
Defined.

(** * Further properties of the code *)

(** ** Whole runs of [Serve] *)
Section serve_runs.
Variable nm : connId → option netFlags.
Implicit Types (m : Listener.t) (w : World) (r : rootListener) (c : connId).

Lemma handleErr_continuesb m err w :
  (Listener.handleErr nm m err w).1 = continuesb nm m err.
Proof.
  unfold Listener.handleErr, continuesb.
  destruct (Listener.errorHandler m err); simpl; [|done].
  by destruct (Listener.asNetError nm err).
Qed.

Lemma mkWorld_eta w : mkWorld (events w) (closing w) (facades w) = w.
Proof. by destruct w. Qed.

(** The loop of [Serve] in one equation. *)
Lemma acceptLoop_eq m r tasks wg w :
  Listener.acceptLoop nm m r tasks wg w =
    (firstFatal nm m r, tasks ++ accepted nm m r, wg + length (accepted nm m r),
     mkWorld (events w ++ (policyCall <$> acceptErrors nm m r)) (closing w) (facades w)).
Proof.
  revert tasks wg w. induction r as [|[c|err] r IH]; intros tasks wg w.
  - simpl. by rewrite !app_nil_r, Nat.add_0_r, mkWorld_eta.
  - cbn [Listener.acceptLoop firstFatal accepted acceptErrors]. rewrite IH.
    rewrite <- app_assoc. simpl. do 3 f_equal. lia.
  - rewrite acceptLoop_error.
    cbn [firstFatal accepted acceptErrors]. rewrite handleErr_continuesb.
    destruct (continuesb nm m err).
    + rewrite IH. simpl. by rewrite <- app_assoc.
    + simpl. by rewrite app_nil_r, Nat.add_0_r.
Qed.

(** The tasks in one equation. *)
Lemma runTasks_eq m tasks k w :
  Listener.runTasks nm m tasks (length tasks + k) w =
    Some (k, mkWorld (events w ++ concat (taskEvents nm m <$> tasks))
               (closing w) (facades w)).
Proof.
  revert w. induction tasks as [|c tasks IH]; intros w.
  - simpl. by rewrite app_nil_r, mkWorld_eta.
  - cbn [Listener.runTasks length Nat.add]. rewrite serve_eq, IH.
    rewrite handleErr_continuesb. simpl. unfold taskEvents.
    by rewrite <- app_assoc.
Qed.

(** [Serve] in one equation, on a listener whose [closing] is open. *)
Lemma Serve_eq m r w :
  chan.closed (closing w) = false →
  Listener.Serve nm m r w =
    match firstFatal nm m r with
    | None =>
        (Blocks,
         mkWorld (events w ++ (policyCall <$> acceptErrors nm m r)) (closing w) (facades w))
    | Some err =>
        (Returns err,
         mkWorld (events w ++ (policyCall <$> acceptErrors nm m r)
                    ++ concat (taskEvents nm m <$> accepted nm m r))
           (chan.mk (chan.queue (closing w)) (chan.capacity (closing w)) true)
           (facades w))
    end.
Proof.
  intros Hopen. unfold Listener.Serve. rewrite acceptLoop_eq.
  destruct (firstFatal nm m r) as [err|]; [|done].
  unfold chan.close. simpl. rewrite Hopen.
  pose proof (runTasks_eq m (accepted nm m r) 0) as Hrun.
  rewrite Nat.add_0_r in Hrun. rewrite Hrun. simpl. by rewrite <- app_assoc.
Qed.

(** [Serve] on a listener whose [closing] has been closed. *)
Lemma Serve_closed m r w :
  chan.closed (closing w) = true →
  (Listener.Serve nm m r w).1 =
    match firstFatal nm m r with
    | None => Blocks
    | Some _ => Panics
    end.
Proof.
  intros Hcl. unfold Listener.Serve. rewrite acceptLoop_eq.
  destruct (firstFatal nm m r) as [err|]; [|done].
  unfold chan.close. simpl. by rewrite Hcl.
Qed.

Lemma closedConns_app evs1 evs2 :
  closedConns (evs1 ++ evs2) = closedConns evs1 ++ closedConns evs2.
Proof. apply omap_app. Qed.

Lemma policyCalls_app evs1 evs2 :
  policyCalls (evs1 ++ evs2) = policyCalls evs1 ++ policyCalls evs2.
Proof. apply omap_app. Qed.

Lemma rootCloses_app evs1 evs2 :
  rootCloses (evs1 ++ evs2) = rootCloses evs1 + rootCloses evs2.
Proof. unfold rootCloses. by rewrite omap_app, length_app. Qed.

Lemma closedConns_policy errs : closedConns (policyCall <$> errs) = [].
Proof. induction errs; [done|]. done. Qed.

Lemma policyCalls_policy errs : policyCalls (policyCall <$> errs) = errs.
Proof.
  induction errs as [|e errs IH]; [done|].
  change (policyCalls (policyCall <$> e :: errs))
    with (e :: policyCalls (policyCall <$> errs)).
  by rewrite IH.
Qed.

Lemma rootCloses_policy errs : rootCloses (policyCall <$> errs) = 0.
Proof. induction errs; [done|]. done. Qed.

Lemma closedConns_tasks m cs : closedConns (concat (taskEvents nm m <$> cs)) = cs.
Proof.
  induction cs as [|c cs IH]; [done|].
  rewrite fmap_cons. cbn [concat]. rewrite closedConns_app, IH.
  unfold taskEvents, closedConns.
  by destruct (continuesb nm m (ErrNotMatched c)).
Qed.

Lemma policyCalls_tasks m cs :
  policyCalls (concat (taskEvents nm m <$> cs)) = ErrNotMatched <$> cs.
Proof.
  induction cs as [|c cs IH]; [done|].
  rewrite !fmap_cons. cbn [concat]. rewrite policyCalls_app, IH.
  unfold taskEvents, policyCalls.
  by destruct (continuesb nm m (ErrNotMatched c)).
Qed.

Lemma rootCloses_tasks m cs :
  rootCloses (concat (taskEvents nm m <$> cs))
  = length (filter (λ c, continuesb nm m (ErrNotMatched c) = false) cs).
Proof.
  induction cs as [|c cs IH]; [done|].
  rewrite fmap_cons. cbn [concat]. rewrite rootCloses_app, IH, filter_cons.
  unfold taskEvents, rootCloses.
  destruct (continuesb nm m (ErrNotMatched c)); simpl; try case_decide; done.
Qed.
End serve_runs.

(** X1.  On a listener whose [closing] is open, [Serve] returns the first
    error of the accept call that the policy does not let pass or that is no
    temporary [net.Error], and it returns nothing as long as no such error
    comes; it never panics. *)
Theorem Serve_outcome (nm : connId → option netFlags) (m : Listener.t)
    (r : rootListener) (w : World) :
  chan.closed (closing w) = false →
  (Listener.Serve nm m r w).1 =
    match firstFatal nm m r with
    | Some err => Returns err
    | None => Blocks
    end.
Proof.
  intros Hopen. rewrite Serve_eq by done. by destruct (firstFatal nm m r).
Qed.

Lemma Serve_outcome_witness :
  chan.closed (closing Listener.newWorld) = false ∧
  (Listener.Serve temporaryNotMatched defaultListener sampleAccepts Listener.newWorld).1
    = Returns errClosed.
Proof.
  split; [reflexivity|].
  exact (Serve_outcome temporaryNotMatched defaultListener sampleAccepts
           Listener.newWorld eq_refl).
Defined.

(** X2.  When [Serve] returns, [closing] is closed, the facades are as they
    were, every connection accepted before the error has been closed once,
    the policy has been handed every error of the accept call the loop met
    and the not-matched error of every accepted connection, and the bound
    listener has been closed once for every accepted connection whose
    not-matched error [handleErr] does not let pass, and not by [Serve]
    itself. *)
Theorem Serve_shutdown (nm : connId → option netFlags) (m : Listener.t)
    (r : rootListener) (w : World) (err : error) :
  chan.closed (closing w) = false →
  firstFatal nm m r = Some err →
  chan.closed (closing (Listener.Serve nm m r w).2) = true ∧
  facades (Listener.Serve nm m r w).2 = facades w ∧
  closedConns (events (Listener.Serve nm m r w).2)
    ≡ₚ closedConns (events w) ++ accepted nm m r ∧
  policyCalls (events (Listener.Serve nm m r w).2)
    ≡ₚ policyCalls (events w) ++ acceptErrors nm m r ++ (ErrNotMatched <$> accepted nm m r) ∧
  rootCloses (events (Listener.Serve nm m r w).2)
    = rootCloses (events w)
      + length (filter (λ c, continuesb nm m (ErrNotMatched c) = false) (accepted nm m r)).
Proof.
  intros Hopen Hfatal. rewrite Serve_eq, Hfatal by done. simpl. split_and!; try done.
  - by rewrite !closedConns_app, closedConns_policy, closedConns_tasks.
  - by rewrite !policyCalls_app, policyCalls_policy, policyCalls_tasks.
  - by rewrite !rootCloses_app, rootCloses_policy, rootCloses_tasks.
Qed.

Lemma Serve_shutdown_witness :
  chan.closed (closing Listener.newWorld) = false ∧
  firstFatal temporaryNotMatched strictListener sampleAccepts = Some errTimeout ∧
  closedConns
    (events (Listener.Serve temporaryNotMatched strictListener sampleAccepts
               Listener.newWorld).2) ≡ₚ [1] ∧
  rootCloses
    (events (Listener.Serve temporaryNotMatched strictListener sampleAccepts
               Listener.newWorld).2) = 1.
Proof.
  split; [reflexivity|]. split; [reflexivity|].
  destruct (Serve_shutdown temporaryNotMatched strictListener sampleAccepts
              Listener.newWorld errTimeout eq_refl eq_refl)
    as (_ & _ & Hconns & _ & Hroot).
  split; [exact Hconns | exact Hroot].
Defined.

(** X3.  [Serve] can return only once on a listener: after a [Serve] that
    has returned, a second [Serve] that meets an error ending its loop panics
    in its deferred function, on the close of the closed [closing]. *)
Theorem Serve_twice_panics (nm : connId → option netFlags) (m m' : Listener.t)
    (r r' : rootListener) (w : World) (err err' : error) :
  chan.closed (closing w) = false →
  firstFatal nm m r = Some err →
  firstFatal nm m' r' = Some err' →
  (Listener.Serve nm m r w).1 = Returns err ∧
  (Listener.Serve nm m' r' (Listener.Serve nm m r w).2).1 = Panics.
Proof.
  intros Hopen Hf Hf'. split.
  - by rewrite Serve_eq, Hf by done.
  - rewrite Serve_closed, Hf'; [done|]. by rewrite Serve_eq, Hf by done.
Qed.

Lemma Serve_twice_panics_witness :
  chan.closed (closing Listener.newWorld) = false ∧
  firstFatal temporaryNotMatched defaultListener sampleAccepts = Some errClosed ∧
  (Listener.Serve temporaryNotMatched defaultListener [inr errClosed]
     (Listener.Serve temporaryNotMatched defaultListener sampleAccepts
        Listener.newWorld).2).1 = Panics.
Proof.
  split; [reflexivity|]. split; [reflexivity|].
  exact (proj2 (Serve_twice_panics temporaryNotMatched defaultListener defaultListener
                  sampleAccepts [inr errClosed] Listener.newWorld errClosed errClosed
                  eq_refl eq_refl eq_refl)).
Defined.

Lemma continuesb_policy (nm : connId → option netFlags) (m1 m2 : Listener.t) err :
  (∀ e, Listener.errorHandler m1 e = Listener.errorHandler m2 e) →
  continuesb nm m1 err = continuesb nm m2 err.
Proof. intros Hsame. unfold continuesb. by rewrite Hsame. Qed.

Lemma handleErr_policy (nm : connId → option netFlags) (m1 m2 : Listener.t) err w :
  (∀ e, Listener.errorHandler m1 e = Listener.errorHandler m2 e) →
  Listener.handleErr nm m1 err w = Listener.handleErr nm m2 err w.
Proof. intros Hsame. unfold Listener.handleErr. by rewrite Hsame. Qed.

Lemma serve_policy (nm : connId → option netFlags) (m1 m2 : Listener.t) c wg w :
  (∀ e, Listener.errorHandler m1 e = Listener.errorHandler m2 e) →
  Listener.serve nm m1 c wg w = Listener.serve nm m2 c wg w.
Proof.
  intros Hsame. unfold Listener.serve.
  by rewrite (handleErr_policy nm m1 m2 _ _ Hsame).
Qed.

Lemma acceptLoop_policy (nm : connId → option netFlags) (m1 m2 : Listener.t)
    r tasks wg w :
  (∀ e, Listener.errorHandler m1 e = Listener.errorHandler m2 e) →
  Listener.acceptLoop nm m1 r tasks wg w = Listener.acceptLoop nm m2 r tasks wg w.
Proof.
  intros Hsame. revert tasks wg w.
  induction r as [|[c|err] r IH]; intros tasks wg w; simpl; [done | apply IH |].
  rewrite (handleErr_policy nm m1 m2 _ _ Hsame).
  destruct (Listener.handleErr nm m2 err w) as [[] w']; simpl; [apply IH | done].
Qed.

Lemma runTasks_policy (nm : connId → option netFlags) (m1 m2 : Listener.t)
    tasks wg w :
  (∀ e, Listener.errorHandler m1 e = Listener.errorHandler m2 e) →
  Listener.runTasks nm m1 tasks wg w = Listener.runTasks nm m2 tasks wg w.
Proof.
  intros Hsame. revert wg w.
  induction tasks as [|c tasks IH]; intros wg w; simpl; [done|].
  rewrite (serve_policy nm m1 m2 _ _ _ Hsame).
  destruct (Listener.serve nm m2 c wg w) as [[wg' w']|]; [apply IH | done].
Qed.

(** X4.  [Serve], the connection task and [handleErr] use nothing of the
    listener but its policy: two listeners with the same policy behave alike.
    So the read timeout set by [SetReadTimeout] is recorded and nowhere
    applied: after it [Serve], the task and [handleErr] do what they did
    before, and it keeps the policy and the queue size. *)
Theorem SetReadTimeout_changes_nothing (nm : connId → option netFlags)
    (m : Listener.t) (d : nat) (r : rootListener) (c : connId) (wg : nat)
    (err : error) (w : World) :
  Listener.readTimeout (Listener.SetReadTimeout d m) = d ∧
  Listener.Serve nm (Listener.SetReadTimeout d m) r w = Listener.Serve nm m r w ∧
  Listener.serve nm (Listener.SetReadTimeout d m) c wg w = Listener.serve nm m c wg w ∧
  Listener.handleErr nm (Listener.SetReadTimeout d m) err w
    = Listener.handleErr nm m err w ∧
  Listener.ServeAsync (Listener.SetReadTimeout d m) w = Listener.ServeAsync m w ∧
  (∀ m2, (∀ e, Listener.errorHandler m e = Listener.errorHandler m2 e) →
         Listener.Serve nm m r w = Listener.Serve nm m2 r w).
Proof.
  assert (Hserve : ∀ m1 m2,
            (∀ e, Listener.errorHandler m1 e = Listener.errorHandler m2 e) →
            Listener.Serve nm m1 r w = Listener.Serve nm m2 r w).
  { intros m1 m2 Hsame. unfold Listener.Serve.
    rewrite (acceptLoop_policy nm m1 m2 _ _ _ _ Hsame).
    destruct (Listener.acceptLoop nm m2 r [] 0 w) as [[[res tasks] wg'] w1].
    destruct res as [e|]; [|done].
    destruct (chan.close (closing w1)) as [cl|]; [|done].
    by rewrite (runTasks_policy nm m1 m2 _ _ _ Hsame). }
  split_and!.
  - reflexivity.
  - by apply Hserve.
  - by apply serve_policy.
  - by apply handleErr_policy.
  - reflexivity.
  - apply Hserve.
Qed.

(** X10.  No policy lets [ErrListenerClosed] pass: its [Temporary()] is
    false, so [handleErr] answers false for it under every policy, and an
    accept loop that meets it returns it. *)
Theorem ErrListenerClosed_ends_Serve (nm : connId → option netFlags) (m : Listener.t)
    (msg : string) (r0 r : rootListener) (w : World) :
  Forall (Listener.goesOn nm m) r0 →
  chan.closed (closing w) = false →
  (Listener.handleErr nm m (errListenerClosed msg) w).1 = false ∧
  (Listener.Serve nm m (r0 ++ inr (errListenerClosed msg) :: r) w).1
    = Returns (errListenerClosed msg).
Proof.
  intros Hall Hopen.
  assert (Hstop : ¬ Listener.continues nm m (errListenerClosed msg)).
  { intros (_ & ne & [= <-] & Ht). discriminate Ht. }
  split; [by apply handleErr_stops | by apply Serve_returns].
Qed.

Lemma ErrListenerClosed_ends_Serve_witness :
  Forall (Listener.goesOn temporaryNotMatched defaultListener) [inl 1; inr errTimeout] ∧
  chan.closed (closing Listener.newWorld) = false ∧
  (Listener.Serve temporaryNotMatched defaultListener
     [inl 1; inr errTimeout; inr ErrListenerClosed] Listener.newWorld).1
    = Returns ErrListenerClosed.
Proof.
  assert (Hall : Forall (Listener.goesOn temporaryNotMatched defaultListener)
                   [inl 1; inr errTimeout]).
  { repeat constructor. simpl. eexists. split; reflexivity. }
  split; [exact Hall|]. split; [reflexivity|].
  exact (proj2 (ErrListenerClosed_ends_Serve temporaryNotMatched defaultListener
                  "mux: listener closed" [inl 1; inr errTimeout] [] Listener.newWorld
                  Hall eq_refl)).
Defined.

(** ** The secondary listener on an open queue *)

(** X5.  On an open queue [Accept] hands out the connections in the order
    they were queued, each without error, and blocks when none is left: [k]
    calls return the first [k] connections when there are that many, and do
    not all return otherwise. *)
Theorem Accepts_open_fifo (l : muxListener.t) (k : nat) :
  chan.closed (muxListener.connections l) = false →
  (k ≤ length (chan.queue (muxListener.connections l)) →
   muxListener.Accepts k l =
     Some ((λ c, (Some c, None)) <$> take k (chan.queue (muxListener.connections l)),
           muxListener.mk
             (chan.mk (drop k (chan.queue (muxListener.connections l)))
                (chan.capacity (muxListener.connections l)) false))) ∧
  (length (chan.queue (muxListener.connections l)) < k →
   muxListener.Accepts k l = None).
Proof.
  revert l. induction k as [|k IH]; intros [[q cap cl]]; simpl; intros ->.
  - split; [by rewrite drop_0 | lia].
  - destruct q as [|c q].
    + split; [simpl; lia | done].
    + destruct (IH (muxListener.mk (chan.mk q cap false)) eq_refl) as [IHle IHlt].
      simpl in IHle, IHlt. unfold muxListener.Accept; simpl. split.
      * intros Hk. by rewrite IHle by lia.
      * intros Hk. by rewrite IHlt by lia.
Qed.

Lemma Accepts_open_fifo_witness :
  chan.closed (chan.mk [4; 5; 6] 1024 false) = false ∧
  muxListener.Accepts 2 (muxListener.mk (chan.mk [4; 5; 6] 1024 false))
    = Some ([(Some 4, None); (Some 5, None)],
            muxListener.mk (chan.mk [6] 1024 false)).
Proof.
  split; [reflexivity|].
  exact (proj1 (Accepts_open_fifo (muxListener.mk (chan.mk [4; 5; 6] 1024 false)) 2
                  eq_refl) ltac:(simpl; lia)).
Defined.

(** X6.  What one [Accept] of a facade can give: it blocks exactly on an
    open, empty queue; it returns an error exactly on a closed, empty queue,
    and then the error is [ErrListenerClosed], there is no connection with it
    and the queue is left as it is; in every other case it returns the oldest
    queued connection, as it was queued, with no error, and takes it off the
    queue.  It never returns a queued connection together with an error. *)
Theorem Accept_result (l : muxListener.t) :
  (muxListener.Accept l = None ↔
   chan.queue (muxListener.connections l) = [] ∧
   chan.closed (muxListener.connections l) = false) ∧
  (∀ res l', muxListener.Accept l = Some (res, l') →
     (∃ c, res = (Some c, None) ∧
           chan.queue (muxListener.connections l)
             = c :: chan.queue (muxListener.connections l') ∧
           chan.closed (muxListener.connections l')
             = chan.closed (muxListener.connections l)) ∨
     (res = (None, Some ErrListenerClosed) ∧ l' = l ∧
      chan.queue (muxListener.connections l) = [] ∧
      chan.closed (muxListener.connections l) = true)).
Proof.
  destruct l as [[q cap cl]]. unfold muxListener.Accept, chan.recv; simpl.
  destruct q as [|c q]; [destruct cl|]; simpl.
  - split; [split; [done | by intros [_ ?]]|].
    intros res l' [= <- <-]. by right.
  - split; [done|]. intros res l'. done.
  - split; [split; [done | by intros [? _]]|].
    intros res l' [= <- <-]. left. by exists c.
Qed.

(** ** The sniffer: what a read stores and what a session sees *)
Section sniffer_more.
Context {S : Type} `{Reader S}.
Variable allocCap : nat → nat → nat → nat.
Implicit Types (s t u : sniffer.t S) (n : nat) (ns : list nat).

Lemma storedErr_cons (e0 : goerror) (r : readResult) rs :
  storedErr e0 (r :: rs)
  = storedErr (if bool_decide (0 < length r.1) then r.2 else e0) rs.
Proof. reflexivity. Qed.

(** Reads at the ceiling with sniffing on: the reader sees the reads of the
    source, the buffer gains their bytes, and the error stored is that of the
    last one that came with bytes. *)
Lemma Reads_sniff_ceiling ns u :
  sniffer.sniffing u = true → sniffer.bufferSize u ≤ sniffer.bufferRead u →
  bytes.ok (sniffer.buffer u) →
  ∃ t,
    sniffer.Reads allocCap ns u = Some ((srcReads ns (sniffer.source u)).1, t) ∧
    sniffer.source t = (srcReads ns (sniffer.source u)).2 ∧
    bytes.contents (sniffer.buffer t)
      = bytes.contents (sniffer.buffer u) ++ bytesOf (srcReads ns (sniffer.source u)).1 ∧
    sniffer.lastErr t = storedErr (sniffer.lastErr u) (srcReads ns (sniffer.source u)).1 ∧
    sniffer.sniffing t = true ∧
    sniffer.bufferRead t = sniffer.bufferRead u ∧
    sniffer.bufferSize t = sniffer.bufferSize u.
Proof.
  revert u. induction ns as [|n ns IH]; intros u Hsn Hge Hok.
  - exists u. simpl. split_and!; try done. unfold bytesOf; simpl. by rewrite app_nil_r.
  - cbn [sniffer.Reads]. rewrite Read_sniff by done. cbn zeta.
    set (u1 := sniffer.mk _ _ _ _ _ _).
    destruct (IH u1) as (t & HR & Hsrc & Hbuf & Herr & Hsn' & Hbr & Hbs);
      [done | done | |].
    { unfold u1; simpl. case_bool_decide; [by apply Write_ok | done]. }
    rewrite HR. exists t. rewrite srcReads_cons. cbn [fst snd].
    split_and!; try done.
    rewrite Hbuf, bytesOf_cons, app_assoc. f_equal.
    unfold u1; simpl. case_bool_decide as Hr.
    + by rewrite Write_contents.
    + destruct ((srcRead (sniffer.source u) n).1.1); [by rewrite app_nil_r|].
      simpl in Hr. lia.
Qed.

Lemma replayWindow_advance n s :
  sniffer.replayWindow
    (sniffer.mk (sniffer.source s) (sniffer.buffer s)
       (sniffer.bufferRead s + n `min` (sniffer.bufferSize s - sniffer.bufferRead s))
       (sniffer.bufferSize s) (sniffer.sniffing s) (sniffer.lastErr s))
  = drop n (sniffer.replayWindow s).
Proof.
  unfold sniffer.replayWindow; simpl. rewrite skipn_firstn_comm, drop_drop.
  destruct (decide (n ≤ sniffer.bufferSize s - sniffer.bufferRead s)).
  - rewrite Nat.min_l by done. f_equal. lia.
  - rewrite Nat.min_r by lia.
    replace (sniffer.bufferSize s - _) with 0 by lia.
    replace (sniffer.bufferSize s - sniffer.bufferRead s - n) with 0 by lia.
    by rewrite !take_0.
Qed.

(** Reads that together ask for less than what is left to replay. *)
Lemma Reads_below_ceiling ns s :
  sniffer.wf s →
  sum_list ns < sniffer.bufferSize s - sniffer.bufferRead s →
  ∃ rs,
    sniffer.Reads allocCap ns s =
      Some (rs,
            sniffer.mk (sniffer.source s) (sniffer.buffer s)
              (sniffer.bufferRead s + sum_list ns) (sniffer.bufferSize s)
              (sniffer.sniffing s) (sniffer.lastErr s)) ∧
    bytesOf rs = take (sum_list ns) (sniffer.replayWindow s) ∧
    Forall2 (λ n (r : readResult), length r.1 = n ∧ r.2 = sniffer.lastErr s) ns rs.
Proof.
  revert s. induction ns as [|n ns IH]; intros s Hwf Hsum.
  - exists []. simpl. rewrite Nat.add_0_r. split_and!; [by destruct s | done | constructor].
  - rewrite sum_list_cons in Hsum. cbn [sniffer.Reads].
    pose proof (length_replayWindow s Hwf) as Hlen.
    rewrite Read_replay by (done || lia).
    rewrite Nat.min_l by lia.
    set (s1 := sniffer.mk _ _ _ _ _ _).
    assert (Hwin : sniffer.replayWindow s1 = drop n (sniffer.replayWindow s)).
    { rewrite <- replayWindow_advance. unfold s1. by rewrite Nat.min_l by lia. }
    destruct (IH s1) as (rs & HR & Hbytes & Hall).
    { destruct Hwf as (Hok & Hle & Hin). unfold sniffer.wf, s1; simpl.
      split_and!; [done | lia | intros _; apply Hin; lia]. }
    { unfold s1; simpl. lia. }
    rewrite HR. eexists. split_and!.
    + rewrite sum_list_cons. unfold s1; cbn [sniffer.source sniffer.buffer
        sniffer.bufferRead sniffer.bufferSize sniffer.sniffing sniffer.lastErr].
      do 3 f_equal. lia.
    + rewrite bytesOf_cons, Hbytes, Hwin, sum_list_cons. cbn [fst].
      apply take_take_drop.
    + constructor; [|done]. simpl. split; [|done]. rewrite length_take. lia.
Qed.
End sniffer_more.

(** X7.  Sniffing does not change what the reader sees.  On a sniffer with
    nothing buffered, after [reset(true)] a sequence of reads returns exactly
    what the same reads of the source return, bytes and errors, and leaves
    the source where they leave it; the buffer then holds exactly the bytes
    returned, and [lastErr] is the error of the last read that came with
    bytes. *)
Theorem sniffing_is_transparent {S : Type} `{Reader S} allocCap (s : sniffer.t S)
    (ns : list nat) :
  idle s →
  ∃ t,
    sniffer.Reads allocCap ns (sniffer.reset true s)
      = Some ((srcReads ns (sniffer.source s)).1, t) ∧
    sniffer.source t = (srcReads ns (sniffer.source s)).2 ∧
    bytes.contents (sniffer.buffer t) = bytesOf (srcReads ns (sniffer.source s)).1 ∧
    sniffer.lastErr t = storedErr (sniffer.lastErr s) (srcReads ns (sniffer.source s)).1.
Proof.
  intros (Hsn & Hlen & Hge). unfold bytes.Len in Hlen.
  destruct (Reads_sniff_ceiling allocCap ns (sniffer.reset true s))
    as (t & HR & Hsrc & Hbuf & Herr & _); [done | simpl; unfold bytes.Len; lia | |].
  { unfold bytes.ok; simpl. lia. }
  exists t. split_and!; try done.
  rewrite Hbuf. simpl. unfold bytes.contents. by rewrite Hlen, take_0.
Qed.

Lemma sniffing_is_transparent_witness :
  idle (sniffer.new helloSource) ∧
  ∃ t,
    sniffer.Reads doublingCap [5; 5; 5] (sniffer.reset true (sniffer.new helloSource))
      = Some ([(HE, None); (LLO, Some EOF); ([], Some EOF)], t) ∧
    bytes.contents (sniffer.buffer t) = HELLO ∧
    sniffer.lastErr t = Some EOF.
Proof.
  assert (Hidle : idle (sniffer.new helloSource)) by concrete_state.
  split; [exact Hidle|].
  destruct (sniffing_is_transparent doublingCap (sniffer.new helloSource) [5; 5; 5] Hidle)
    as (t & HR & _ & Hbuf & Herr).
  exists t. split; [exact HR|]. split; [exact Hbuf | exact Herr].
Defined.

(** X8.  What one [Read] stores.  It never changes the ceiling or the
    sniffing flag.  With sniffing off it leaves the stored error alone and
    never adds to the buffer (it keeps it or drops it whole).  With sniffing
    on the buffer gains exactly the bytes the call pulled from the source:
    nothing below the ceiling, the returned bytes at the ceiling.  An error
    that comes without bytes is returned and not stored; bytes pulled while
    sniffing store their error. *)
Theorem Read_stores {S : Type} `{Reader S} allocCap (n : nat) (s t : sniffer.t S)
    (r : readResult) :
  sniffer.wf s →
  sniffer.Read allocCap n s = Some (r, t) →
  sniffer.bufferSize t = sniffer.bufferSize s ∧
  sniffer.sniffing t = sniffer.sniffing s ∧
  (sniffer.sniffing s = false →
   sniffer.lastErr t = sniffer.lastErr s ∧
   (sniffer.buffer t = sniffer.buffer s ∨ sniffer.buffer t = bytes.zero)) ∧
  (sniffer.sniffing s = true →
   bytes.contents (sniffer.buffer t)
     = bytes.contents (sniffer.buffer s)
       ++ (if bool_decide (sniffer.bufferRead s < sniffer.bufferSize s) then [] else r.1)) ∧
  (r.1 = [] → sniffer.lastErr t = sniffer.lastErr s) ∧
  (sniffer.sniffing s = true → sniffer.bufferSize s ≤ sniffer.bufferRead s →
   r.1 ≠ [] → sniffer.lastErr t = r.2).
Proof.
  intros Hwf.
  destruct (decide (sniffer.bufferRead s < sniffer.bufferSize s)) as [Hlt|Hge].
  - rewrite Read_replay by done. intros [= <- <-]. simpl.
    rewrite bool_decide_eq_true_2 by done.
    split_and!; try done; try (by auto); try (by rewrite app_nil_r); try (intros; lia).
  - destruct (sniffer.sniffing s) eqn:Hsn.
    + rewrite Read_sniff by (done || lia). cbn zeta. intros [= <- <-]. simpl.
      rewrite (bool_decide_eq_false_2 (sniffer.bufferRead s < sniffer.bufferSize s))
        by done.
      split_and!; try done.
      * intros _. case_bool_decide as Hr; [apply Write_contents, Hwf|].
        destruct ((srcRead (sniffer.source s) n).1.1); [by rewrite app_nil_r|].
        simpl in Hr. lia.
      * intros Hr. rewrite Hr. by rewrite bool_decide_eq_false_2 by (simpl; lia).
      * intros _ _ Hr. rewrite bool_decide_eq_true_2; [done|].
        destruct ((srcRead (sniffer.source s) n).1.1); [done | simpl; lia].
    + rewrite Read_passthrough by (done || lia). intros [= <- <-]. simpl.
      split_and!; try done. intros _. split; [done|].
      destruct (negb _); auto.
Qed.

Lemma Read_stores_witness :
  sniffer.wf (sniffer.reset true (sniffer.new helloSource)) ∧
  ∃ t,
    sniffer.Read doublingCap 2 (sniffer.reset true (sniffer.new helloSource))
      = Some ((HE, None), t) ∧
    bytes.contents (sniffer.buffer t) = HE.
Proof.
  assert (Hwf : sniffer.wf (sniffer.reset true (sniffer.new helloSource)))
    by concrete_state.
  split; [exact Hwf|].
  assert (HR : ∃ t, sniffer.Read doublingCap 2
                      (sniffer.reset true (sniffer.new helloSource))
                    = Some ((HE, None), t)) by (eexists; vm_compute; reflexivity).
  destruct HR as [t HR]. exists t. split; [exact HR|].
  destruct (Read_stores doublingCap 2 (sniffer.reset true (sniffer.new helloSource))
              t (HE, None) Hwf HR) as (_ & _ & _ & Hgain & _).
  exact (Hgain eq_refl).
Defined.

(** X9.  Replay does not depend on how the reader cuts its reads: reads that
    together ask for less than what is left below the ceiling each get as many
    bytes as they ask for, all with the stored error; together these are the
    next bytes of the buffer; the source and the buffer are not touched and
    the cursor moves by the number of bytes asked for. *)
Theorem replay_in_pieces {S : Type} `{Reader S} allocCap (s : sniffer.t S)
    (ns : list nat) :
  sniffer.wf s →
  sum_list ns < sniffer.bufferSize s - sniffer.bufferRead s →
  ∃ rs,
    sniffer.Reads allocCap ns s =
      Some (rs,
            sniffer.mk (sniffer.source s) (sniffer.buffer s)
              (sniffer.bufferRead s + sum_list ns) (sniffer.bufferSize s)
              (sniffer.sniffing s) (sniffer.lastErr s)) ∧
    bytesOf rs = take (sum_list ns) (sniffer.replayWindow s) ∧
    Forall2 (λ n (r : readResult), length r.1 = n ∧ r.2 = sniffer.lastErr s) ns rs.
Proof. apply Reads_below_ceiling. Qed.

Lemma replay_in_pieces_witness :
  sniffer.wf (afterHello helloSource) ∧
  sum_list [1; 0; 3]
    < sniffer.bufferSize (afterHello helloSource)
      - sniffer.bufferRead (afterHello helloSource) ∧
  ∃ rs t,
    sniffer.Reads doublingCap [1; 0; 3] (afterHello helloSource) = Some (rs, t) ∧
    bytesOf rs = take 4 HELLO ∧
    sniffer.source t = helloSource.
Proof.
  assert (Hwf : sniffer.wf (afterHello helloSource)) by concrete_state.
  assert (Hsum : sum_list [1; 0; 3]
                 < sniffer.bufferSize (afterHello helloSource)
                   - sniffer.bufferRead (afterHello helloSource)) by (simpl; lia).
  split; [exact Hwf|]. split; [exact Hsum|].
  destruct (replay_in_pieces doublingCap (afterHello helloSource) [1; 0; 3] Hwf Hsum)
    as (rs & HR & Hbytes & _).
  eexists rs, _. split; [exact HR|]. split; [exact Hbytes | reflexivity].
Defined.

(** The operations on a connection keep its sniffer well formed. *)
Lemma runOps_wf {S : Type} `{Reader S} allocCap (ops : list connOp) (m : Conn.t S) :
  sniffer.wf (Conn.buffer m) →
  ∃ rs m',
    runOps allocCap ops m = Some (rs, m') ∧
    Conn.Conn m' = Conn.Conn m ∧
    sniffer.wf (Conn.buffer m') ∧
    Forall2 (λ n (r : readResult), length r.1 ≤ n) (readSizes ops) rs.
Proof.
  revert m. induction ops as [|o ops IH]; intros m Hwf.
  - exists [], m. simpl. split_and!; try done.
  - destruct o as [n| |]; cbn [runOps].
    + unfold Conn.Read.
      destruct (Read_wf allocCap n (Conn.buffer m) Hwf) as (r & t & HR & Hwt).
      rewrite HR.
      destruct (IH (Conn.mk (Conn.Conn m) t) Hwt) as (rs & m' & -> & Hc & Hw' & Hall).
      exists (r :: rs), m'. split_and!; try done.
      change (readSizes (opRead n :: ops)) with (n :: readSizes ops).
      constructor; [|done]. exact (Read_le allocCap n _ r t Hwf HR).
    + destruct (IH (Conn.startSniffing m)) as (rs & m' & -> & Hc & Hw' & Hall).
      { apply wf_reset, Hwf. }
      by exists rs, m'.
    + destruct (IH (Conn.doneSniffing m)) as (rs & m' & -> & Hc & Hw' & Hall).
      { apply wf_reset, Hwf. }
      by exists rs, m'.
Qed.

(** X11.  A sniffed connection is safe to use: from [newConn], any sequence
    of [Read], [startSniffing] and [doneSniffing] runs without a panic of the
    slice expression, every read returns at most as many bytes as the
    caller's slice holds, and the connection wrapped stays the same. *)
Theorem Conn_operations_are_safe {S : Type} `{Reader S} allocCap (ops : list connOp)
    (c : connId) (rd : S) :
  ∃ rs m,
    runOps allocCap ops (newConn c rd) = Some (rs, m) ∧
    Conn.Conn m = c ∧
    Forall2 (λ n (r : readResult), length r.1 ≤ n) (readSizes ops) rs.
Proof.
  destruct (runOps_wf allocCap ops (newConn c rd)) as (rs & m & HR & Hc & _ & Hall).
  - apply wf_new.
  - by exists rs, m.
Qed.

(** X12.  Sniffing and handing over loses and repeats nothing, whatever the
    sizes of the reads on either side.  On a sniffer with nothing buffered,
    let the sniffing reads be of the sizes [ns1] and, after [reset(false)],
    the consumer's reads of the sizes [ns2].  The sniffing reads return what
    the reads of the source return.  The consumer's first [k] reads are
    served from the buffer: they carry the stored error and their bytes are a
    beginning of the sniffed bytes, all of them when more reads follow; the
    reads that follow are the reads of the source from where sniffing left
    it. *)
Theorem handover_after_sniffing {S : Type} `{Reader S} allocCap (s : sniffer.t S)
    (ns1 ns2 : list nat) :
  idle s →
  ∃ t1 rs2 t2 k,
    sniffer.Reads allocCap ns1 (sniffer.reset true s)
      = Some ((srcReads ns1 (sniffer.source s)).1, t1) ∧
    sniffer.Reads allocCap ns2 (sniffer.reset false t1) = Some (rs2, t2) ∧
    Forall (λ r : readResult,
              r.2 = storedErr (sniffer.lastErr s) (srcReads ns1 (sniffer.source s)).1)
      (take k rs2) ∧
    bytesOf (take k rs2) `prefix_of` bytesOf (srcReads ns1 (sniffer.source s)).1 ∧
    (k < length ns2 →
     bytesOf (take k rs2) = bytesOf (srcReads ns1 (sniffer.source s)).1) ∧
    drop k rs2 = (srcReads (drop k ns2) (srcReads ns1 (sniffer.source s)).2).1 ∧
    sniffer.source t2 = (srcReads (drop k ns2) (srcReads ns1 (sniffer.source s)).2).2.
Proof.
  intros (Hsn & Hlen & Hge). unfold bytes.Len in Hlen.
  assert (Hok : bytes.ok (sniffer.buffer s)) by (unfold bytes.ok; lia).
  destruct (Reads_sniff_ceiling allocCap ns1 (sniffer.reset true s))
    as (t1 & HR1 & Hsrc1 & Hbuf1 & Herr1 & _);
    [done | simpl; unfold bytes.Len; lia | done |].
  simpl in HR1, Hsrc1, Hbuf1, Herr1.
  assert (Hcontents : bytes.contents (sniffer.buffer t1)
                      = bytesOf (srcReads ns1 (sniffer.source s)).1).
  { rewrite Hbuf1. unfold bytes.contents at 1. by rewrite Hlen, take_0. }
  assert (Hwf1 : sniffer.wf t1).
  { destruct (Reads_wf allocCap ns1 (sniffer.reset true s)) as (rs & t & HR & Hwt);
      [by apply wf_reset|].
    rewrite HR1 in HR. by injection HR as _ ->. }
  assert (Hwin : sniffer.replayWindow (sniffer.reset false t1)
                 = bytes.contents (sniffer.buffer t1)).
  { unfold sniffer.replayWindow, sniffer.reset; simpl.
    rewrite drop_0, Nat.sub_0_r. apply take_ge.
    rewrite length_contents by apply Hwf1. done. }
  destruct (Reads_replay allocCap ns2 (sniffer.reset false t1))
    as (t2 & HR2 & Hsrc2 & _); [apply wf_reset, Hwf1 | done |].
  rewrite Hwin, Hcontents in HR2, Hsrc2. simpl in HR2, Hsrc2.
  rewrite Herr1, Hsrc1 in HR2, Hsrc2.
  destruct (replay_split (storedErr (sniffer.lastErr s) (srcReads ns1 (sniffer.source s)).1)
              ns2 (bytesOf (srcReads ns1 (sniffer.source s)).1)
              (srcReads ns1 (sniffer.source s)).2)
    as (k & Herr & Hpre & Hall & Hdrop & Hsrc').
  eexists t1, _, t2, k. split; [done|]. split; [exact HR2|].
  split_and!; try done. by rewrite Hsrc2.
Qed.

Lemma handover_after_sniffing_witness :
  idle (sniffer.new helloSource) ∧
  ∃ t1 rs2 t2,
    sniffer.Reads doublingCap [2] (sniffer.reset true (sniffer.new helloSource))
      = Some ([(HE, None)], t1) ∧
    sniffer.Reads doublingCap [1; 4; 4] (sniffer.reset false t1) = Some (rs2, t2) ∧
    bytesOf rs2 = HELLO.
Proof.
  assert (Hidle : idle (sniffer.new helloSource)) by concrete_state.
  split; [exact Hidle|].
  destruct (handover_after_sniffing doublingCap (sniffer.new helloSource) [2] [1; 4; 4]
              Hidle) as (t1 & rs2 & t2 & k & HR1 & HR2 & _).
  exists t1, rs2, t2. split; [exact HR1|]. split; [exact HR2|].
  vm_compute in HR1. injection HR1 as <-.
  vm_compute in HR2. injection HR2 as <- _. reflexivity.
Defined.
